(** * LinyapsManager: the streaming subsystem (internal/streaming/streaming.go)

    A shallow embedding of the Go package [streaming]: the operation
    identifier generator, the carriage-return aware line splitter driven by
    a [bufio.Scanner], the emitter, the pipe-mode, pty-mode and synchronous
    runners, and the receiver.

    Go [int] values are modelled as [Z]; the [uint64] counter is a [Z] with
    its wrap-around written out; a Go string of output bytes is a
    [list byte]; identifiers and messages are [string]. *)

From Stdlib Require Import ZArith List String Ascii Bool Lia.
From Stdlib.Strings Require Import Byte.
From Stdlib Require Import DecimalString DecimalZ.
Import ListNotations.
Open Scope Z_scope.

(* ================================================================== *)
(** * Operation identifiers *)

Module OpId.

(** The process: its stable pid ([os.Getpid]) and the package level
    [operationCounter]. *)
Record Proc := mkProc { pid : Z; operationCounter : Z }.

Definition uint64_modulus : Z := 2 ^ 64.

(** [atomic.AddUint64(addr, delta)]: one indivisible read-modify-write, the
    new value is returned; unsigned 64-bit arithmetic wraps. *)
Definition AddUint64 (old delta : Z) : Z := (old + delta) mod uint64_modulus.

(** The verb [%d] of [fmt.Sprintf]: decimal digits, a minus sign when
    negative. *)
Definition fmt_d (z : Z) : string := NilEmpty.string_of_int (Z.to_int z).

(** [GenerateOperationID]: the identifier and the process afterwards. *)
Definition GenerateOperationID (p : Proc) : string * Proc :=
  let id := AddUint64 (operationCounter p) 1 in
  (("op-" ++ fmt_d (pid p) ++ "-" ++ fmt_d id)%string,
   {| pid := pid p; operationCounter := id |}).

(** [n] calls one after the other.  Concurrent callers only share the
    counter, through the atomic add, so every concurrent execution is one of
    these sequences of atomic increments. *)
Fixpoint calls (n : nat) (p : Proc) : list string * Proc :=
  match n with
  | O => ([], p)
  | S k => let '(id, p1) := GenerateOperationID p in
           let '(ids, p2) := calls k p1 in
           (id :: ids, p2)
  end.

(** The identifier returned by call number [k] (counting from 0). *)
Definition call_id (p : Proc) (k : nat) : string :=
  fst (GenerateOperationID (snd (calls k p))).

End OpId.

(* ================================================================== *)
(** * The chunk splitter: [scanLinesCR] under a [bufio.Scanner] *)

Module Splitter.

Definition LF : byte := x0a.
Definition CR : byte := x0d.

(** [b == '\n' || b == '\r'] *)
Definition is_break (b : byte) : bool := Byte.eqb b LF || Byte.eqb b CR.

Definition len {A} (l : list A) : Z := Z.of_nat (List.length l).

(** [data[0:i]] and [data[i:]] for an index within bounds. *)
Definition slice_to {A} (i : Z) (l : list A) : list A := firstn (Z.to_nat i) l.
Definition slice_from {A} (i : Z) (l : list A) : list A := skipn (Z.to_nat i) l.

(** Errors a scanner can hold.  [EOF] is [io.EOF]; the others are the
    [bufio] errors of the same names. *)
Inductive error : Type :=
| EOF
| ErrTooLong
| ErrNegativeAdvance
| ErrAdvanceTooFar
| ErrNoProgress.

Definition is_nil {A} (o : option A) : bool :=
  match o with None => true | Some _ => false end.

(** The [for i, b := range data] loop of [scanLinesCR]: the index of the
    first newline or carriage return at or after position [i]. *)
Fixpoint first_break (data : list byte) (i : Z) : option Z :=
  match data with
  | [] => None
  | b :: rest => if is_break b then Some i else first_break rest (i + 1)
  end.

(** [scanLinesCR(data, atEOF) (advance, token, err)].  A [nil] token is
    [None]; [data[0:0]] is the empty, non-nil token [Some []]. *)
Definition scanLinesCR (data : list byte) (atEOF : bool)
  : Z * option (list byte) * option error :=
  match first_break data 0 with
  | Some i => (i + 1, Some (slice_to i data), None)
  | None =>
      if atEOF && (0 <? len data)
      then (len data, Some data, None)
      else (0, None, None)
  end.

(** ** The reader

    The read side of a pipe or of a pseudo-terminal: the bytes the process
    has still to deliver, and how many of them each coming [Read] call hands
    over ([S k] bytes for the entry [k], everything that fits once the list
    is used up).  A [Read] into [space > 0] bytes returns at least one byte
    while bytes remain, and [(0, io.EOF)] afterwards. *)
Record Reader := mkReader { pending : list byte; sched : list nat }.

Definition Read (r : Reader) (space : Z) : list byte * option error * Reader :=
  match pending r with
  | [] => ([], Some EOF, r)
  | _ :: _ =>
      let want := match sched r with [] => space | k :: _ => Z.of_nat (S k) end in
      let n := Z.min space want in
      (slice_to n (pending r), None,
       {| pending := slice_from n (pending r); sched := tl (sched r) |})
  end.

(** ** [bufio.Scanner]

    The scanner of Go's standard library, for the split function
    [scanLinesCR].  [s.buf] is represented by its length [buf_len] and by
    the live bytes [s.buf[s.start:s.end]] ([window]); [s.end] is
    [start + len window].  The bytes outside the window are never read. *)
Record Scanner := mkScanner {
  r : Reader;
  maxTokenSize : Z;
  token : option (list byte);
  buf_len : Z;
  start : Z;
  window : list byte;
  err : option error
}.

Definition buf_end (s : Scanner) : Z := start s + len (window s).

Definition maxInt : Z := 2 ^ 63 - 1.
Definition startBufSize : Z := 4096.

(** [s.setErr(err)]: the first error that is not [io.EOF] is kept. *)
Definition setErr (s : Scanner) (e : error) : Scanner :=
  match err s with
  | None | Some EOF =>
      {| r := r s; maxTokenSize := maxTokenSize s; token := token s;
         buf_len := buf_len s; start := start s; window := window s;
         err := Some e |}
  | Some _ => s
  end.

Definition with_window (s : Scanner) (st : Z) (w : list byte) : Scanner :=
  {| r := r s; maxTokenSize := maxTokenSize s; token := token s;
     buf_len := buf_len s; start := st; window := w; err := err s |}.

Definition with_token (s : Scanner) (t : option (list byte)) : Scanner :=
  {| r := r s; maxTokenSize := maxTokenSize s; token := t;
     buf_len := buf_len s; start := start s; window := window s; err := err s |}.

Definition with_buf_len (s : Scanner) (n : Z) : Scanner :=
  {| r := r s; maxTokenSize := maxTokenSize s; token := token s;
     buf_len := n; start := start s; window := window s; err := err s |}.

Definition with_reader (s : Scanner) (rd : Reader) : Scanner :=
  {| r := rd; maxTokenSize := maxTokenSize s; token := token s;
     buf_len := buf_len s; start := start s; window := window s; err := err s |}.

(** One pass through the body of the [for] loop of [Scan]. *)
Inductive pass : Type :=
| Return (found : bool) (s : Scanner)
| Again (s : Scanner).

(** "Must read more data", first: the live bytes are shifted to the
    beginning of the buffer when it is full or more than half empty. *)
Definition shift_data (s : Scanner) : Scanner :=
  if (0 <? start s) && ((buf_end s =? buf_len s) || (buf_len s / 2 <? start s))
  then with_window s 0 (window s) else s.

(** Second: a full buffer is doubled, up to [maxTokenSize]; a buffer that
    is full at that size is the error [ErrTooLong] ([inl]). *)
Definition grow (s : Scanner) : Scanner + Scanner :=
  if buf_end s =? buf_len s then
    if (maxTokenSize s <=? buf_len s) || (maxInt / 2 <? buf_len s)
    then inl (setErr s ErrTooLong)
    else
      let newSize := buf_len s * 2 in
      let newSize := if newSize =? 0 then startBufSize else newSize in
      let newSize := Z.min newSize (maxTokenSize s) in
      inr (with_window (with_buf_len s newSize) 0 (window s))
  else inr s.

(** Third: [s.r.Read(s.buf[s.end:len(s.buf)])]. *)
Definition read_more (s : Scanner) : Scanner :=
  let '(data, e, rd) := Read (r s) (buf_len s - buf_end s) in
  let s1 := with_window (with_reader s rd) (start s) (window s ++ data) in
  match e with
  | Some e' => setErr s1 e'
  | None =>
      if 0 <? len data then s1
      else (* the reader keeps returning nothing: after 100 tries *)
        setErr s1 ErrNoProgress
  end.

Definition fill (s : Scanner) : pass :=
  match grow (shift_data s) with
  | inl failed => Return false failed
  | inr s1 => Again (read_more s1)
  end.

Definition scan_pass (s : Scanner) : pass :=
  let tried :=
    if (start s <? buf_end s) || negb (is_nil (err s)) then
      let '(advance, tok, e) := scanLinesCR (window s) (negb (is_nil (err s))) in
      match e with
      | Some e' => inl (Return false (setErr s e'))
      | None =>
          (* s.advance(advance) *)
          if advance <? 0 then inl (Return false (setErr s ErrNegativeAdvance))
          else if buf_end s - start s <? advance
          then inl (Return false (setErr s ErrAdvanceTooFar))
          else
            let s1 := with_token
                        (with_window s (start s + advance)
                                     (slice_from advance (window s))) tok in
            match tok with
            | Some _ => inl (Return true s1)
            | None => inr s1
            end
      end
    else inr s in
  match tried with
  | inl res => res
  | inr s1 =>
      if negb (is_nil (err s1))
      then Return false (with_window s1 0 [])
      else fill s1
  end.

Fixpoint Scan_loop (fuel : nat) (s : Scanner) : option (bool * Scanner) :=
  match fuel with
  | O => None
  | S f =>
      match scan_pass s with
      | Return found s' => Some (found, s')
      | Again s' => Scan_loop f s'
      end
  end.

(** Every pass that asks for another one has taken bytes from the reader or
    recorded an error, so this many passes are enough. *)
Definition scan_fuel (s : Scanner) : nat := List.length (pending (r s)) + 3.

(** [s.Scan()] *)
Definition Scan (s : Scanner) : option (bool * Scanner) :=
  Scan_loop (scan_fuel s) s.

(** [s.Text()] *)
Definition Text (s : Scanner) : list byte :=
  match token s with Some t => t | None => [] end.

(** [bufio.NewScanner(r)] followed by [scanner.Buffer(buf, max)] with
    [cap(buf) = cap] and [scanner.Split(scanLinesCR)]. *)
Definition NewScanner (rd : Reader) (cap max : Z) : Scanner :=
  {| r := rd; maxTokenSize := max; token := None; buf_len := cap;
     start := 0; window := []; err := None |}.

(** The scanner a pass leaves behind, and the scanners that come up while
    [Scan] is called again and again. *)
Definition after_pass (p : pass) : Scanner :=
  match p with Return _ s => s | Again s => s end.

Inductive comes_to : Scanner -> Scanner -> Prop :=
| comes_to_itself s : comes_to s s
| comes_to_next s s1 : comes_to s s1 -> comes_to s (after_pass (scan_pass s1)).

End Splitter.

(* ================================================================== *)
(** * The emitter and the reader loop *)

Module Emit.
Import Splitter.

(** The two signals of the bus interface. *)
Inductive Signal : Type :=
| Output (operationID : string) (data : list byte) (isStderr : bool)
| Complete (operationID : string) (exitCode : Z) (errorMsg : string).

(** Lines written to the log and to standard error by this package. *)
Inductive LogEntry : Type :=
| LogChunk (operationID : string) (line : list byte)
    (* log.Printf("[streaming] %s: %s", operationID, line) *)
| LogEmitOutputFailed (e : string).
    (* fmt.Fprintf(os.Stderr, "[streaming] failed to emit output: %v\n", err) *)

(** What the package acts on: the bus connection and the log.  [transport]
    holds the answers of the connection to the coming [conn.Emit] calls
    ([None]: sent, [Some e]: the call fails with [e]; every call is answered
    [None] once the list is used up).  [emit_calls] records every signal
    handed to [conn.Emit], with the answer. *)
Record World := mkWorld {
  transport : list (option string);
  emit_calls : list (Signal * option string);
  log : list LogEntry
}.

(** The signals handed to the connection, in the order of the calls. *)
Definition emissions (w : World) : list Signal := map fst (emit_calls w).

(** [e.conn.Emit(...)] under [e.mu]: one indivisible call. *)
Definition conn_Emit (w : World) (sig : Signal) : option string * World :=
  let answer := match transport w with [] => None | a :: _ => a end in
  (answer,
   {| transport := tl (transport w);
      emit_calls := emit_calls w ++ [(sig, answer)];
      log := log w |}).

Definition EmitOutput (w : World) (operationID : string) (data : list byte)
  (isStderr : bool) : option string * World :=
  conn_Emit w (Output operationID data isStderr).

Definition EmitComplete (w : World) (operationID : string) (exitCode : Z)
  (errorMsg : string) : option string * World :=
  conn_Emit w (Complete operationID exitCode errorMsg).

Definition write_log (w : World) (e : LogEntry) : World :=
  {| transport := transport w; emit_calls := emit_calls w;
     log := log w ++ [e] |}.

(** The body of [for scanner.Scan() { ... }] in [streamReader], after
    [line := scanner.Text() + "\n"]: the line is logged and emitted, and a
    failure to emit is reported on standard error and otherwise ignored. *)
Definition emit_line (w : World) (operationID : string) (line : list byte)
  (isStderr : bool) : World :=
  let w1 := write_log w (LogChunk operationID line) in
  let '(e, w2) := EmitOutput w1 operationID line isStderr in
  match e with
  | Some msg => write_log w2 (LogEmitOutputFailed msg)
  | None => w2
  end.

Fixpoint streamReader_loop (fuel : nat) (w : World) (operationID : string)
  (sc : Scanner) (isStderr : bool) : option World :=
  match fuel with
  | O => None
  | S f =>
      match Scan sc with
      | None => None
      | Some (false, _) => Some w   (* scanner errors are ignored *)
      | Some (true, sc') =>
          streamReader_loop f (emit_line w operationID (Text sc' ++ [LF]) isStderr)
                            operationID sc' isStderr
      end
  end.

(** Every token takes at least one byte, so this many rounds are enough. *)
Definition stream_fuel (sc : Scanner) : nat :=
  List.length (window sc) + List.length (pending (r sc)) + 1.

Definition initial_buffer : Z := 64 * 1024.
Definition max_buffer : Z := 1024 * 1024.

(** [streamReader(emitter, operationID, r, isStderr)] *)
Definition streamReader (w : World) (operationID : string) (rd : Reader)
  (isStderr : bool) : option World :=
  let scanner := NewScanner rd initial_buffer max_buffer in
  streamReader_loop (stream_fuel scanner) w operationID scanner isStderr.

End Emit.

(* ================================================================== *)
(** * Process exit, as [os/exec] reports it *)

Module Exec.

(** [syscall.WaitStatus] on Linux, a [uint32]. *)
Definition WaitStatus := Z.

Definition mask : Z := 0x7F.
Definition exited : Z := 0x00.
Definition shift : Z := 8.

Definition Exited (w : WaitStatus) : bool := Z.land w mask =? exited.

(** [-1] when the process did not exit on its own (it was terminated by a
    signal). *)
Definition ExitStatus (w : WaitStatus) : Z :=
  if negb (Exited w) then -1 else Z.land (Z.shiftr w shift) 0xFF.

(** [ProcessState.ExitCode] and [ProcessState.Success]. *)
Definition ExitCode (w : WaitStatus) : Z := ExitStatus w.
Definition Success (w : WaitStatus) : bool := ExitStatus w =? 0.

(** The errors [cmd.Wait] returns: an [*exec.ExitError] carrying the
    process state, or any other error (a failed wait system call, an
    expired context, ...) with its text. *)
Inductive error : Type :=
| ExitError (state : WaitStatus)
| OtherError (msg : string).

(** What waiting for the process comes to.  The kernel hands over a wait
    status ([Reaped]), or waiting itself fails ([WaitFailed]).  A command
    made by [exec.CommandContext] is watched besides: when its context is
    done before [Wait] has reaped the process, the watcher ends the process
    and, where that went through, hands the context's error to [Wait]
    ([Interrupted]).  That also befalls a process that had exited on its own
    and was not yet waited for. *)
Inductive WaitOutcome : Type :=
| Reaped (state : WaitStatus)
| Interrupted (state : WaitStatus) (watchErr : string)
| WaitFailed (msg : string).

(** [cmd.Wait()]: the error of the wait itself when it failed; otherwise an
    [*exec.ExitError] for every wait status that is no successful exit;
    otherwise the error of the watcher, when it has one; otherwise [nil]. *)
Definition Wait (o : WaitOutcome) : option error :=
  match o with
  | Reaped w => if Success w then None else Some (ExitError w)
  | Interrupted w watchErr =>
      if Success w then Some (OtherError watchErr) else Some (ExitError w)
  | WaitFailed msg => Some (OtherError msg)
  end.

(** [err.Error()].  The text of an [*exec.ExitError] is never used by this
    package; it is rendered here by the exit status alone. *)
Definition Error (e : error) : string :=
  match e with
  | ExitError w => ("exit status " ++ OpId.fmt_d (ExitCode w))%string
  | OtherError msg => msg
  end.

End Exec.

(* ================================================================== *)
(** * The runners *)

Module Runner.
Import Splitter Emit.

(** The block shared by the three runners after [cmd.Wait()]: exit code 0
    and an empty message when [err] is [nil]; [exitErr.ExitCode()] and an
    empty message when [err] is an [exec.ExitError]; [-1] and [err.Error()]
    for any other error. *)
Definition completion (err : option Exec.error) : Z * string :=
  match err with
  | None => (0, EmptyString)
  | Some (Exec.ExitError w) => (Exec.ExitCode w, EmptyString)
  | Some e => (-1, Exec.Error e)
  end.

(** What the operating system makes of a start request in pipe mode. *)
Inductive Spawn : Type :=
| StdoutPipeFails (msg : string)
| StderrPipeFails (msg : string)
| StartFails (msg : string)
| Started (stdout stderr : Reader) (exit : Exec.WaitOutcome).

(** ... and in pty mode ([pty.StartWithAttrs]). *)
Inductive SpawnPTY : Type :=
| PtyStartFails (msg : string)
| PtyStarted (ptyFile : Reader) (exit : Exec.WaitOutcome).

(** A [streamReader] goroutine: still in its loop, or returned (its
    deferred [wg.Done()] has run). *)
Inductive ReaderTask : Type :=
| Reading (sc : Scanner)
| ReaderDone.

(** Where the finalizing goroutine stands. *)
Inductive Finalizer : Type :=
| AtWgWait      (* blocked in wg.Wait() *)
| AtCmdWait     (* about to call cmd.Wait() and EmitComplete *)
| Finished.

(** The goroutines of one pipe-mode operation. *)
Record PipeTask := mkPipeTask {
  operationID : string;
  stdoutTask : ReaderTask;
  stderrTask : ReaderTask;
  wg : Z;
  finalizer : Finalizer;
  exit : Exec.WaitOutcome
}.

Definition task_of (t : PipeTask) (isStderr : bool) : ReaderTask :=
  if isStderr then stderrTask t else stdoutTask t.

Definition set_task (t : PipeTask) (isStderr : bool) (rt : ReaderTask)
  (counter : Z) : PipeTask :=
  {| operationID := operationID t;
     stdoutTask := if isStderr then stdoutTask t else rt;
     stderrTask := if isStderr then rt else stderrTask t;
     wg := counter;
     finalizer := finalizer t;
     exit := exit t |}.

Definition set_finalizer (t : PipeTask) (f : Finalizer) : PipeTask :=
  {| operationID := operationID t; stdoutTask := stdoutTask t;
     stderrTask := stderrTask t; wg := wg t; finalizer := f; exit := exit t |}.

(** The goroutines as started by [RunCommandStreaming] after [wg.Add(2)]. *)
Definition start_tasks (id : string) (stdout stderr : Reader)
  (exit : Exec.WaitOutcome) : PipeTask :=
  {| operationID := id;
     stdoutTask := Reading (NewScanner stdout initial_buffer max_buffer);
     stderrTask := Reading (NewScanner stderr initial_buffer max_buffer);
     wg := 2;
     finalizer := AtWgWait;
     exit := exit |}.

(** The finalization: [cmd.Wait()], the completion block, [EmitComplete]
    (its result is dropped). *)
Definition finalize (w : World) (id : string) (exit : Exec.WaitOutcome) : World :=
  let '(exitCode, errorMsg) := completion (Exec.Wait exit) in
  snd (EmitComplete w id exitCode errorMsg).

(** One step of one goroutine.  The two readers share nothing but the
    emitter, whose mutex makes every emission indivisible, so one round of a
    reader's loop is taken as one step. *)
Inductive step : PipeTask * World -> PipeTask * World -> Prop :=
| step_chunk t w isStderr sc sc' :
    task_of t isStderr = Reading sc ->
    Scan sc = Some (true, sc') ->
    step (t, w)
         (set_task t isStderr (Reading sc') (wg t),
          emit_line w (operationID t) (Text sc' ++ [LF]) isStderr)
| step_reader_done t w isStderr sc sc' :
    task_of t isStderr = Reading sc ->
    Scan sc = Some (false, sc') ->
    step (t, w) (set_task t isStderr ReaderDone (wg t - 1), w)
| step_wg_wait t w :
    finalizer t = AtWgWait ->
    wg t = 0 ->
    step (t, w) (set_finalizer t AtCmdWait, w)
| step_finalize t w :
    finalizer t = AtCmdWait ->
    step (t, w) (set_finalizer t Finished, finalize w (operationID t) (exit t)).

(** Executions: any number of steps, in any interleaving. *)
Inductive steps : PipeTask * World -> PipeTask * World -> Prop :=
| steps_refl c : steps c c
| steps_more c1 c2 c3 : steps c1 c2 -> step c2 c3 -> steps c1 c3.

(** [RunCommandStreaming]: the returned pair, the process afterwards, and
    the goroutines left running, if any. *)
Definition RunCommandStreaming (p : OpId.Proc) (sp : Spawn)
  : (string * option string) * OpId.Proc * option PipeTask :=
  let '(operationID, p1) := OpId.GenerateOperationID p in
  match sp with
  | StdoutPipeFails e =>
      ((EmptyString, Some ("failed to create stdout pipe: " ++ e)%string), p1, None)
  | StderrPipeFails e =>
      ((EmptyString, Some ("failed to create stderr pipe: " ++ e)%string), p1, None)
  | StartFails e =>
      ((EmptyString, Some ("failed to start command: " ++ e)%string), p1, None)
  | Started stdout stderr exit =>
      ((operationID, None), p1, Some (start_tasks operationID stdout stderr exit))
  end.

(** The goroutine of pty mode: one reader, then the finalization. *)
Definition pty_task (w : World) (id : string) (ptyFile : Reader)
  (exit : Exec.WaitOutcome) : option World :=
  match streamReader w id ptyFile false with
  | Some w1 => Some (finalize w1 id exit)
  | None => None
  end.

(** [RunCommandStreamingPTY]: the returned pair, the process afterwards, and
    what the goroutine it leaves running does to the world, if it starts
    one. *)
Definition RunCommandStreamingPTY (p : OpId.Proc) (sp : SpawnPTY)
  : (string * option string) * OpId.Proc * option (World -> option World) :=
  let '(operationID, p1) := OpId.GenerateOperationID p in
  match sp with
  | PtyStartFails e =>
      ((EmptyString, Some ("failed to start command with pty: " ++ e)%string),
       p1, None)
  | PtyStarted ptyFile exit =>
      ((operationID, None), p1,
       Some (fun w => pty_task w operationID ptyFile exit))
  end.

(** [RunCommandStreamingSync] up to the point where it blocks: either it
    has returned [(operationID, -1, err)], or its readers are running; in
    that case the same goroutines as in pipe mode run, the caller plays the
    finalizer, and the call returns [sync_return]. *)
Inductive SyncStart : Type :=
| SyncFailed (operationID : string) (exitCode : Z) (err : string)
| SyncRunning (t : PipeTask).

Definition RunCommandStreamingSync (p : OpId.Proc) (sp : Spawn)
  : SyncStart * OpId.Proc :=
  let '(operationID, p1) := OpId.GenerateOperationID p in
  match sp with
  | StdoutPipeFails e =>
      (SyncFailed operationID (-1) ("failed to create stdout pipe: " ++ e)%string, p1)
  | StderrPipeFails e =>
      (SyncFailed operationID (-1) ("failed to create stderr pipe: " ++ e)%string, p1)
  | StartFails e =>
      (SyncFailed operationID (-1) ("failed to start command: " ++ e)%string, p1)
  | Started stdout stderr exit =>
      (SyncRunning (start_tasks operationID stdout stderr exit), p1)
  end.

Definition sync_return (t : PipeTask) : string * Z * option string :=
  (operationID t, fst (completion (Exec.Wait (exit t))), None).

End Runner.

(* ================================================================== *)
(** * The receiver *)

Module Recv.

(** internal/dbusconsts *)
Definition ObjectPath : string := "/org/linglong_store/LinyapsManager".
Definition Interface : string := "org.linglong_store.LinyapsManager".
Definition SignalOutput : string := "Output".
Definition SignalComplete : string := "Complete".

(** A value of a signal body, by its dynamic type. *)
Inductive Value : Type :=
| VString (s : string)
| VInt32 (n : Z)
| VBool (b : bool)
| VOther.

(** [dbus.Signal] *)
Record Signal := mkSignal { Path : string; Name : string; Body : list Value }.

(** [Receiver].  [signalChan] holds the signals buffered in the channel,
    oldest first; [signalChanClosed] tells whether the connection has closed
    that channel; [stopChanClosed] whether [stopChan] is closed;
    [subscribed] whether the channel is still registered with the
    connection. *)
Record Receiver := mkReceiver {
  signalChan : list Signal;
  signalChanClosed : bool;
  stopChanClosed : bool;
  stopped : bool;
  subscribed : bool
}.

(** [r.Stop()], under [r.mu]. *)
Definition Stop (rc : Receiver) : Receiver :=
  if negb (stopped rc) then
    {| signalChan := signalChan rc;
       signalChanClosed := signalChanClosed rc;
       stopChanClosed := true;               (* close(r.stopChan) *)
       stopped := true;                      (* r.stopped = true *)
       subscribed := false |}                (* r.conn.RemoveSignal(r.signalChan) *)
  else rc.

(** The receiver [NewReceiver] returns when both subscriptions succeed. *)
Definition NewReceiver : Receiver :=
  {| signalChan := []; signalChanClosed := false; stopChanClosed := false;
     stopped := false; subscribed := true |}.

(** [stopChan] is closed, and the subscription removed, by [Stop] and by
    nothing else. *)
Definition well_formed (rc : Receiver) : Prop :=
  stopChanClosed rc = stopped rc /\ (stopped rc = true -> subscribed rc = false).

(** How one call of [WaitForOperation] ends: it returns, or it is left
    blocked in its [select] with nothing buffered. *)
Inductive WaitResult : Type :=
| Returned (exitCode : Z) (errorMsg : string)
| Blocked.

(** What the [case sig, ok := <-r.signalChan] arm does with a received
    signal: [inl] to go round the loop again (with the chunk passed to
    [outputFn], if any), [inr] to return. *)
Definition on_signal (operationID : string) (sig : Signal)
  : option (string * bool) + Z * string :=
  if negb (String.eqb (Path sig) ObjectPath) then inl None
  else if String.eqb (Name sig) (Interface ++ "." ++ SignalOutput)%string then
    match Body sig with
    | VString opID :: VString data :: VBool isStderr :: _ =>
        if String.eqb opID operationID then inl (Some (data, isStderr))
        else inl None
    | _ => inl None
    end
  else if String.eqb (Name sig) (Interface ++ "." ++ SignalComplete)%string then
    match Body sig with
    | VString opID :: VInt32 exitCode :: VString errorMsg :: _ =>
        if String.eqb opID operationID then inr (exitCode, errorMsg)
        else inl None
    | _ => inl None
    end
  else inl None.

(** The loop of [WaitForOperation] over the buffered signals.  When both
    arms of the [select] can proceed Go picks one at random: [picks] gives
    these choices in order ([true]: the signal arm; the stop arm once the
    list is used up).  The chunks passed to [outputFn] are collected. *)
Fixpoint wait_loop (queue : list Signal) (chanClosed stopClosed : bool)
  (operationID : string) (picks : list bool)
  : WaitResult * list (string * bool) * list Signal :=
  match queue with
  | [] =>
      if chanClosed then
        if stopClosed && negb (hd false picks)
        then (Returned (-1) "receiver stopped", [], [])
        else (Returned (-1) "signal channel closed", [], [])
      else if stopClosed then (Returned (-1) "receiver stopped", [], [])
      else (Blocked, [], [])
  | sig :: rest =>
      if stopClosed && negb (hd false picks)
      then (Returned (-1) "receiver stopped", [], queue)
      else
        let picks' := if stopClosed then tl picks else picks in
        match on_signal operationID sig with
        | inr (exitCode, errorMsg) => (Returned exitCode errorMsg, [], rest)
        | inl chunk =>
            let '(res, chunks, remaining) :=
              wait_loop rest chanClosed stopClosed operationID picks' in
            (res, match chunk with Some c => c :: chunks | None => chunks end, remaining)
        end
  end.

(** [r.WaitForOperation(operationID, outputFn)]: the result, the chunks
    given to [outputFn] in order, and the receiver afterwards. *)
Definition WaitForOperation (rc : Receiver) (operationID : string)
  (picks : list bool) : WaitResult * list (string * bool) * Receiver :=
  let '(res, chunks, remaining) :=
    wait_loop (signalChan rc) (signalChanClosed rc) (stopChanClosed rc)
              operationID picks in
  (res, chunks,
   {| signalChan := remaining; signalChanClosed := signalChanClosed rc;
      stopChanClosed := stopChanClosed rc; stopped := stopped rc;
      subscribed := subscribed rc |}).

Definition wait_result (rc : Receiver) (operationID : string)
  (picks : list bool) : WaitResult :=
  fst (fst (WaitForOperation rc operationID picks)).

End Recv.

(* ================================================================== *)
(** * What the splitter is to produce, in the words of the specification *)

Module ChunkSpec.
Import Splitter.

(** The segments of a byte stream: it is cut at every newline and at every
    carriage return, the boundary byte belongs to no segment, and bytes left
    after the last boundary form a last segment. *)
Fixpoint segments (l : list byte) : list (list byte) :=
  match l with
  | [] => []
  | b :: t =>
      if is_break b then [] :: segments t
      else match segments t with
           | [] => [[b]]
           | seg :: more => (b :: seg) :: more
           end
  end.

(** Every chunk is a segment followed by exactly one newline. *)
Definition chunk_of (seg : list byte) : list byte := seg ++ [LF].
Definition chunks (l : list byte) : list (list byte) := map chunk_of (segments l).

(** The segments in front of the first one that has [limit] bytes or more. *)
Fixpoint within (limit : Z) (segs : list (list byte)) : list (list byte) :=
  match segs with
  | [] => []
  | seg :: more => if len seg <? limit then seg :: within limit more else []
  end.

(** No newline and no carriage return in [l]. *)
Definition unbroken (l : list byte) : Prop := Forall (fun b => is_break b = false) l.

(** The first segment of [l], and what follows its boundary byte when it
    has one. *)
Fixpoint cut (l : list byte) : list byte * option (list byte) :=
  match l with
  | [] => ([], None)
  | b :: t =>
      if is_break b then ([], Some t)
      else let '(seg, after) := cut t in (b :: seg, after)
  end.

(** The next token a scanner limited to [limit] bytes gets out of the
    unread bytes [l], with the bytes left after it; [None] when it stops. *)
Definition next_token (limit : Z) (l : list byte) : option (list byte * list byte) :=
  let '(seg, after) := cut l in
  if len seg <? limit then
    match after with
    | Some rest => Some (seg, rest)
    | None => match l with [] => None | _ :: _ => Some (seg, []) end
    end
  else None.

(** A stream all of whose segments are shorter than [limit]. *)
Definition short_segments (limit : Z) (l : list byte) : Prop :=
  Forall (fun seg => len seg < limit) (segments l).

(** The bytes in front of a segment: none, or bytes that end with a
    boundary byte. *)
Definition ends_at_break (l : list byte) : Prop :=
  l = [] \/ exists front b, l = front ++ [b] /\ is_break b = true.

(** The live bytes lie within the buffer, and the buffer within the
    limit. *)
Definition buffer_ok (s : Scanner) : Prop :=
  0 <= start s /\ start s + len (window s) <= buf_len s /\
  0 < buf_len s <= maxTokenSize s.

(** Whether a call of [Scan] finds a token. *)
Definition found (limit : Z) (l : list byte) : bool :=
  match next_token limit l with Some _ => true | None => false end.

(** The bytes a scanner has still to deliver: its window, then what the
    reader holds. *)
Definition unread (s : Scanner) : list byte := window s ++ pending (r s).

(** The states a scanner goes through when it is started by [NewScanner]
    with a buffer no larger than the limit. *)
Definition scanner_ok (s : Scanner) : Prop :=
  0 < buf_len s <= maxTokenSize s /\
  maxTokenSize s <= maxInt / 2 /\
  0 <= start s /\
  buf_end s <= buf_len s /\
  (err s = None \/
   (err s = Some EOF /\ pending (r s) = [] /\ buf_end s < buf_len s)).

(** The world after the lines [lines] went through the loop body of
    [streamReader], one after the other. *)
Definition emit_lines (w : Emit.World) (operationID : string)
  (lines : list (list byte)) (isStderr : bool) : Emit.World :=
  fold_left (fun w' line => Emit.emit_line w' operationID line isStderr) lines w.

(** The passes a call of [Scan] can still need. *)
Definition passes_left (s : Scanner) : nat :=
  List.length (pending (r s)) + (if is_nil (err s) then 1 else 0)%nat.

End ChunkSpec.

(* ================================================================== *)
(** * What a running operation is to emit *)

Module RunSpec.
Import Splitter Emit Runner ChunkSpec.

(** The lines a reader is still to emit from a scanner state: the segments
    of the unread bytes that come before the first one too long for the
    buffer, each with its newline. *)
Definition lines_of (sc : Scanner) : list (list byte) :=
  map chunk_of (within (maxTokenSize sc) (segments (unread sc))).

(** [streamReader] on the reader [rd] returns, and has then emitted the
    lines [lines], in this order, after what had been emitted before. *)
Definition emits (w : World) (id : string) (rd : Reader) (isStderr : bool)
  (lines : list (list byte)) : Prop :=
  exists w', streamReader w id rd isStderr = Some w' /\
             emissions w' = emissions w ++ map (fun line => Output id line isStderr) lines.

(** The lines [streamReader] emits for a stream. *)
Definition stream_lines (rd : Reader) : list (list byte) :=
  map chunk_of (within max_buffer (segments (pending rd))).

Definition task_lines (rt : ReaderTask) : list (list byte) :=
  match rt with Reading sc => lines_of sc | ReaderDone => [] end.

Definition task_ok (rt : ReaderTask) : Prop :=
  match rt with Reading sc => scanner_ok sc | ReaderDone => True end.

Definition running (rt : ReaderTask) : Z :=
  match rt with Reading _ => 1 | ReaderDone => 0 end.

(** An emitted line with the stream it came from ([true]: standard
    error), and the signal it is emitted as. *)
Definition signal_of (id : string) (o : bool * list byte) : Signal :=
  Output id (snd o) (fst o).

(** The lines of one stream among emitted lines, in their order. *)
Definition from_stream (isStderr : bool) (outs : list (bool * list byte))
  : list (list byte) :=
  map snd (filter (fun o => Bool.eqb (fst o) isStderr) outs).

(** The exit code and the error message of the completion record of a
    process that ends as [exit] says. *)
Definition exit_code (exit : Exec.WaitOutcome) : Z :=
  fst (completion (Exec.Wait exit)).
Definition error_message (exit : Exec.WaitOutcome) : string :=
  snd (completion (Exec.Wait exit)).

(** The one [Complete] signal of an operation. *)
Definition completion_signal (id : string) (exit : Exec.WaitOutcome) : Signal :=
  Complete id (fst (completion (Exec.Wait exit))) (snd (completion (Exec.Wait exit))).

(** A start request the operating system turns down. *)
Definition spawn_failed (sp : Spawn) : Prop :=
  match sp with Started _ _ _ => False | _ => True end.

Definition is_Output (s : Signal) : Prop :=
  match s with Output _ _ _ => True | Complete _ _ _ => False end.

(** What holds of the goroutines [t] of an operation and of the signals
    [tr] it has emitted so far, in every state of every execution. *)
Definition run_inv (id : string) (out_lines err_lines : list (list byte))
  (exit : Exec.WaitOutcome) (t : PipeTask) (tr : list Signal) : Prop :=
  operationID t = id /\ Runner.exit t = exit /\
  task_ok (stdoutTask t) /\ task_ok (stderrTask t) /\
  wg t = running (stdoutTask t) + running (stderrTask t) /\
  (finalizer t <> AtWgWait ->
   stdoutTask t = ReaderDone /\ stderrTask t = ReaderDone) /\
  exists outs,
    from_stream false outs ++ task_lines (stdoutTask t) = out_lines /\
    from_stream true outs ++ task_lines (stderrTask t) = err_lines /\
    tr = map (signal_of id) outs ++
         match finalizer t with
         | Finished => [completion_signal id exit]
         | _ => []
         end.

(** A bound on the steps an operation can still take. *)
Definition task_size (rt : ReaderTask) : nat :=
  match rt with
  | Reading sc => S (List.length (unread sc))
  | ReaderDone => O
  end.

Definition steps_left (t : PipeTask) : nat :=
  task_size (stdoutTask t) + task_size (stderrTask t) +
  match finalizer t with AtWgWait => 2 | AtCmdWait => 1 | Finished => 0 end.

End RunSpec.

(* ================================================================== *)
(** * Concrete inputs used in examples *)

Module Samples.
Import Splitter Emit.

Definition bytes (s : string) : list byte := list_byte_of_string s.

(** The three writes of the ordering example, as the pipe carries them. *)
Definition abc_stream : list byte :=
  bytes "a" ++ [LF] ++ bytes "b" ++ [LF] ++ bytes "c" ++ [LF].

(** A progress display that redraws its line with carriage returns. *)
Definition progress_stream : list byte :=
  bytes "progress: 1%" ++ [CR] ++ bytes "progress: 2%" ++ [CR] ++ bytes "done" ++ [LF].

(** One line with a Windows line ending. *)
Definition crlf_stream : list byte := bytes "a" ++ [CR; LF].

(** As many bytes without a line break as the scanner's buffer may hold. *)
Definition long_line : list byte := repeat x61 (Z.to_nat max_buffer).

(** A connection that accepts everything, nothing emitted or logged yet. *)
Definition quiet_world : World := mkWorld [] [] [].

Definition a_process : OpId.Proc := OpId.mkProc 4242 0.

(** A connection on which the next emission fails. *)
Definition closed_world : World :=
  mkWorld [Some "dbus: connection closed by user"%string] [] [].

(** A receiver in whose channel the Complete signal of the operation
    op-4242-1, exit code 0, is waiting. *)
Definition receiver_with_result : Recv.Receiver :=
  {| Recv.signalChan :=
       [Recv.mkSignal Recv.ObjectPath
          (Recv.Interface ++ "." ++ Recv.SignalComplete)%string
          [Recv.VString "op-4242-1"; Recv.VInt32 0; Recv.VString EmptyString]];
     Recv.signalChanClosed := false;
     Recv.stopChanClosed := false;
     Recv.stopped := false;
     Recv.subscribed := true |}.

(** The signals of the service as they arrive at a receiver. *)
Definition bus_output (id data : string) (isStderr : bool) : Recv.Signal :=
  Recv.mkSignal Recv.ObjectPath (Recv.Interface ++ "." ++ Recv.SignalOutput)%string
                [Recv.VString id; Recv.VString data; Recv.VBool isStderr].

Definition bus_complete (id : string) (exitCode : Z) (errorMsg : string) : Recv.Signal :=
  Recv.mkSignal Recv.ObjectPath (Recv.Interface ++ "." ++ Recv.SignalComplete)%string
                [Recv.VString id; Recv.VInt32 exitCode; Recv.VString errorMsg].

End Samples.

(* ================================================================== *)
(** * What reaches the bus, byte by byte *)

Module TextSpec.
Import Splitter Emit.

(** A carriage return becomes a newline; every other byte stays. *)
Definition to_newline (b : byte) : byte := if Byte.eqb b CR then LF else b.

(** The newline that closes a stream which does not end with a boundary
    byte. *)
Definition closing (l : list byte) : list byte :=
  if is_break (last l LF) then [] else [LF].

(** The answers of the connection to the next [n] emissions. *)
Fixpoint answers (n : nat) (transport : list (option string)) : list (option string) :=
  match n with
  | O => []
  | S k => match transport with
           | [] => None :: answers k []
           | a :: rest => a :: answers k rest
           end
  end.

(** What one line leaves in the log, by the answer to its emission. *)
Definition line_log (operationID : string) (entry : list byte * option string)
  : list LogEntry :=
  LogChunk operationID (fst entry) ::
  match snd entry with
  | Some e => [LogEmitOutputFailed e]
  | None => []
  end.

(** No minus sign in [s]. *)
Fixpoint dashless (s : string) : bool :=
  match s with
  | EmptyString => true
  | String c rest => negb (Ascii.eqb c "-") && dashless rest
  end.

(** The chunks [WaitForOperation] hands to its sink for the signals
    [sigs], in order. *)
Definition delivered (operationID : string) (sigs : list Recv.Signal)
  : list (string * bool) :=
  flat_map (fun sig => match Recv.on_signal operationID sig with
                       | inl (Some chunk) => [chunk]
                       | _ => []
                       end) sigs.

(** A receiver that has not been stopped, with [queue] buffered. *)
Definition listening (queue : list Recv.Signal) (chanClosed : bool) : Recv.Receiver :=
  {| Recv.signalChan := queue; Recv.signalChanClosed := chanClosed;
     Recv.stopChanClosed := false; Recv.stopped := false; Recv.subscribed := true |}.

End TextSpec.

(* ================================================================== *)
(** * The callers: the service's InstallStream and the client's parsers *)

Module Service.
Import Runner.

(** Whether [c] is in the class [[a-zA-Z0-9._-]] of [appIDPattern] and
    [versionPattern]. *)
Definition in_class (c : ascii) : bool :=
  let n := N_of_ascii c in
  ((97 <=? n) && (n <=? 122))%N || ((65 <=? n) && (n <=? 90))%N ||
  ((48 <=? n) && (n <=? 57))%N ||
  Ascii.eqb c "." || Ascii.eqb c "_" || Ascii.eqb c "-".

(** [appIDPattern.MatchString(s)] for the pattern
    [^[a-zA-Z0-9._-]{1,64}$]: between 1 and 64 characters, all of the
    class. *)
Fixpoint all_in_class (s : string) : bool :=
  match s with
  | EmptyString => true
  | String c rest => in_class c && all_in_class rest
  end.

Definition MatchString (s : string) : bool :=
  (1 <=? String.length s)%nat && (String.length s <=? 64)%nat && all_in_class s.

(** The errors of the validation, by their format strings. *)
Inductive error : Type :=
| InvalidAppID (id : string)        (* "invalid appid: %q" *)
| EmptyVersion                      (* "version cannot be empty" *)
| InvalidVersion (v : string)       (* "invalid version: %q" *)
| Failed (e : string).              (* an error of the streaming package *)

Definition validateAppID (id : string) : option error :=
  if negb (MatchString id) then Some (InvalidAppID id) else None.

Definition validateVersion (v : string) : option error :=
  if String.eqb v EmptyString then Some EmptyVersion
  else if negb (MatchString v) then Some (InvalidVersion v)
  else None.

(** [appRef]: [fmt.Sprintf("%s/%s", appID, version)] once both parts are
    valid. *)
Definition appRef (appID version : string) : string + error :=
  match validateAppID appID with
  | Some e => inr e
  | None =>
      match validateVersion version with
      | Some e => inr e
      | None => inl (appID ++ "/" ++ version)%string
      end
  end.

(** What a call of [InstallStream] comes to: the pair it returns, the
    process afterwards, the argument vector handed to [ll-cli] when the
    command is started, and what the goroutine left behind does. *)
Record Invocation := mkInvocation {
  returned : string * option error;
  process : OpId.Proc;
  command : option (list string);
  background : option (Emit.World -> option Emit.World)
}.

(** [InstallStream(appID, version, force)], for the outcome [sp] of
    starting [ll-cli] in a pseudo-terminal. *)
Definition InstallStream (p : OpId.Proc) (appID version : string) (force : bool)
  (sp : SpawnPTY) : Invocation :=
  let checked :=
    if String.eqb version EmptyString then
      match validateAppID appID with
      | Some e => inr e
      | None => inl appID
      end
    else appRef appID version in
  match checked with
  | inr e => mkInvocation (EmptyString, Some e) p None None
  | inl ref =>
      let args := ["install"; ref; "-y"]%string in
      let args := if force then args ++ ["--force"%string] else args in
      match RunCommandStreamingPTY p sp with
      | ((_, Some e), p1, _) => mkInvocation (EmptyString, Some (Failed e)) p1 (Some args) None
      | ((opID, None), p1, task) => mkInvocation (opID, None) p1 (Some args) task
      end
  end.

End Service.

Module Client.

(** The first occurrence of [sep] in [s]: what stands before it and what
    stands after it. *)
Fixpoint cut_at (sep : ascii) (s : string) : option (string * string) :=
  match s with
  | EmptyString => None
  | String c rest =>
      if Ascii.eqb c sep then Some (EmptyString, rest)
      else match cut_at sep rest with
           | Some (before, after) => Some (String c before, after)
           | None => None
           end
  end.

(** [strings.SplitN(s, sep, 2)] for a separator of one character. *)
Definition SplitN2 (s : string) (sep : ascii) : list string :=
  match cut_at sep s with
  | Some (before, after) => [before; after]
  | None => [s]
  end.

(** [strings.Contains(s, sep)] for a separator of one character. *)
Definition Contains (s : string) (sep : ascii) : bool :=
  match cut_at sep s with Some _ => true | None => false end.

Inductive error : Type :=
| ExpectAppIdVersion (ref : string)   (* "expect appId/version, got %q" *)
| AppIdEmpty.                         (* "appId cannot be empty" *)

(** [parseAppRef] *)
Definition parseAppRef (ref : string) : (string * string) + error :=
  match SplitN2 ref "/" with
  | [a; b] =>
      if String.eqb a EmptyString || String.eqb b EmptyString
      then inr (ExpectAppIdVersion ref)
      else inl (a, b)
  | _ => inr (ExpectAppIdVersion ref)
  end.

(** [parseAppRefOptional] *)
Definition parseAppRefOptional (ref : string) : (string * string) + error :=
  if Contains ref "/" then parseAppRef ref
  else if String.eqb ref EmptyString then inr AppIdEmpty
  else inl (ref, EmptyString).

(** The loop shared by [parseJSONFlag] and [parseForceFlag]: the flag is
    noted and dropped wherever it stands, the other arguments are kept in
    their order. *)
Fixpoint parse_flag_loop (flag : string) (args : list string) (seen : bool)
  (rest : list string) : bool * list string :=
  match args with
  | [] => (seen, rest)
  | a :: more =>
      if String.eqb a flag then parse_flag_loop flag more true rest
      else parse_flag_loop flag more seen (rest ++ [a])
  end.

Definition parseJSONFlag (args : list string) : bool * list string :=
  parse_flag_loop "--json" args false [].

Definition parseForceFlag (args : list string) : bool * list string :=
  parse_flag_loop "--force" args false [].

End Client.

(* ================================================================== *)
(** * Proof steps that recur *)

Module ProofTactics.
Import Splitter ChunkSpec RunSpec.

(** Take a scanner apart and show its fields. *)
Ltac open_scanner s :=
  destruct s as [rd M tok L st w e];
  unfold scanner_ok, buf_end, unread, passes_left,
    with_window, with_token, with_buf_len, with_reader, setErr in *;
  cbn [r maxTokenSize token buf_len start window err] in *.

(** The parts of [run_inv], one goal each. *)
Ltac split_inv :=
  unfold run_inv;
  split; [|split; [|split; [|split; [|split; [|split]]]]].

End ProofTactics.

(* ================================================================== *)
(** * Facts about the splitter *)

Module SplitterFacts.
Import Splitter ChunkSpec.

Lemma len_nil {A} : len (@nil A) = 0.
Proof. reflexivity. Qed.

Lemma len_cons {A} (x : A) l : len (x :: l) = len l + 1.
Proof. unfold len. cbn [List.length]. lia. Qed.

Lemma len_app {A} (a b : list A) : len (a ++ b) = len a + len b.
Proof. unfold len. rewrite length_app. lia. Qed.

Lemma len_nonneg {A} (l : list A) : 0 <= len l.
Proof. unfold len. lia. Qed.

Lemma len_zero {A} (l : list A) : len l = 0 -> l = [].
Proof. destruct l; [reflexivity | rewrite len_cons; pose proof (len_nonneg l); lia]. Qed.

Lemma slice_join {A} (n : Z) (l : list A) : slice_to n l ++ slice_from n l = l.
Proof. apply firstn_skipn. Qed.

Lemma len_slice_to {A} (n : Z) (l : list A) : len (slice_to n l) = Z.min (Z.max 0 n) (len l).
Proof. unfold len, slice_to. rewrite length_firstn. lia. Qed.

Lemma len_slice_from {A} (n : Z) (l : list A) :
  len (slice_from n l) = len l - Z.min (Z.max 0 n) (len l).
Proof. unfold len, slice_from. rewrite length_skipn. lia. Qed.

Lemma slice_to_app {A} (a b : list A) : slice_to (len a) (a ++ b) = a.
Proof.
  unfold slice_to, len. rewrite Nat2Z.id.
  rewrite firstn_app, Nat.sub_diag, firstn_all. cbn. apply app_nil_r.
Qed.

Lemma slice_from_app {A} (a b : list A) : slice_from (len a) (a ++ b) = b.
Proof.
  unfold slice_from, len. rewrite Nat2Z.id.
  rewrite skipn_app, Nat.sub_diag, skipn_all. reflexivity.
Qed.

Lemma slice_from_succ_app {A} (a : list A) x b :
  slice_from (len a + 1) (a ++ x :: b) = b.
Proof.
  replace (len a + 1) with (len (a ++ [x])) by (rewrite len_app; reflexivity).
  replace (a ++ x :: b) with ((a ++ [x]) ++ b) by (rewrite <- app_assoc; reflexivity).
  apply slice_from_app.
Qed.

(** ** The first boundary byte *)

Lemma first_break_found data : forall i j,
  first_break data i = Some j ->
  exists seg b rest,
    data = seg ++ b :: rest /\ unbroken seg /\ is_break b = true /\ j = i + len seg.
Proof.
  induction data as [|x t IH]; intros i j H; cbn in H; [discriminate|].
  destruct (is_break x) eqn:Hx.
  - injection H as <-. exists [], x, t. repeat split; auto. constructor.
    rewrite len_nil; lia.
  - destruct (IH _ _ H) as (seg & b & rest & -> & Hs & Hb & ->).
    exists (x :: seg), b, rest. repeat split; auto.
    + constructor; auto.
    + rewrite len_cons. lia.
Qed.

Lemma first_break_none data : forall i, first_break data i = None -> unbroken data.
Proof.
  induction data as [|x t IH]; intros i H; cbn in H; [constructor|].
  destruct (is_break x) eqn:Hx; [discriminate|].
  constructor; [assumption | exact (IH _ H)].
Qed.

Lemma first_break_unbroken data : forall i, unbroken data -> first_break data i = None.
Proof.
  induction data as [|x t IH]; intros i H; cbn; [reflexivity|].
  inversion H; subst. rewrite H2. auto.
Qed.

(** ** [scanLinesCR] on its own *)

Lemma scanLinesCR_break seg b rest atEOF :
  unbroken seg -> is_break b = true ->
  scanLinesCR (seg ++ b :: rest) atEOF = (len seg + 1, Some seg, None).
Proof.
  intros Hs Hb. unfold scanLinesCR.
  assert (H : forall i, first_break (seg ++ b :: rest) i = Some (i + len seg)).
  { clear -Hs Hb. induction Hs as [|x t Hx Ht IH]; intros i; cbn [app first_break].
    - rewrite Hb. f_equal. unfold len; cbn; lia.
    - rewrite Hx, IH. f_equal. rewrite len_cons. lia. }
  rewrite H. cbn [Z.add]. rewrite slice_to_app. reflexivity.
Qed.

Lemma scanLinesCR_unbroken data atEOF :
  unbroken data ->
  scanLinesCR data atEOF =
    if atEOF && (0 <? len data) then (len data, Some data, None) else (0, None, None).
Proof. intros H. unfold scanLinesCR. rewrite first_break_unbroken by assumption. reflexivity. Qed.

(** A window either shows a boundary byte or is unbroken. *)
Lemma window_cases (w : list byte) :
  (exists seg b rest, w = seg ++ b :: rest /\ unbroken seg /\ is_break b = true)
  \/ unbroken w.
Proof.
  destruct (first_break w 0) as [j|] eqn:H.
  - left. destruct (first_break_found _ _ _ H) as (seg & b & rest & ? & ? & ? & ?); eauto 6.
  - right. eapply first_break_none; eauto.
Qed.

(** ** [cut], [next_token] and [segments] *)

Lemma cut_break seg b rest :
  unbroken seg -> is_break b = true -> cut (seg ++ b :: rest) = (seg, Some rest).
Proof.
  intros Hs Hb. induction Hs as [|x t Hx Ht IH]; cbn.
  - rewrite Hb. reflexivity.
  - rewrite Hx, IH. reflexivity.
Qed.

Lemma cut_unbroken l : unbroken l -> cut l = (l, None).
Proof.
  induction 1 as [|x t Hx Ht IH]; cbn; [reflexivity|]. rewrite Hx, IH. reflexivity.
Qed.

Lemma cut_prefix w p : unbroken w ->
  cut (w ++ p) = (w ++ fst (cut p), snd (cut p)).
Proof.
  induction 1 as [|x t Hx Ht IH]; cbn.
  - destruct (cut p); reflexivity.
  - rewrite Hx, IH. reflexivity.
Qed.

Lemma segments_break seg b rest :
  unbroken seg -> is_break b = true ->
  segments (seg ++ b :: rest) = seg :: segments rest.
Proof.
  intros Hs Hb. induction Hs as [|x t Hx Ht IH]; cbn.
  - rewrite Hb. reflexivity.
  - rewrite Hx, IH. reflexivity.
Qed.

Lemma segments_unbroken l : unbroken l -> l <> [] -> segments l = [l].
Proof.
  induction 1 as [|x t Hx Ht IH]; intros Hne; [congruence|]. cbn. rewrite Hx.
  destruct t as [|y t']; [reflexivity|]. rewrite IH by congruence. reflexivity.
Qed.

Lemma cut_spec l :
  (exists seg b rest, l = seg ++ b :: rest /\ unbroken seg /\ is_break b = true /\
                      cut l = (seg, Some rest))
  \/ (unbroken l /\ cut l = (l, None)).
Proof.
  destruct (window_cases l) as [(seg & b & rest & -> & Hs & Hb)|H].
  - left. exists seg, b, rest. repeat split; auto using cut_break.
  - right. auto using cut_unbroken.
Qed.

(** The scanner's view agrees with the segments of the specification. *)
Lemma within_segments limit l :
  within limit (segments l) =
    match next_token limit l with
    | Some (seg, rest) => seg :: within limit (segments rest)
    | None => []
    end.
Proof.
  unfold next_token.
  destruct (cut_spec l) as [(seg & b & rest & -> & Hs & Hb & ->)|[H ->]].
  - rewrite segments_break by assumption. cbn [within].
    destruct (len seg <? limit); reflexivity.
  - destruct l as [|x t]; [cbn; destruct (0 <? limit); reflexivity|].
    rewrite segments_unbroken by (assumption || congruence). cbn [within].
    destruct (len (x :: t) <? limit); reflexivity.
Qed.

Lemma next_token_shorter limit l seg rest :
  next_token limit l = Some (seg, rest) -> (List.length rest < List.length l)%nat.
Proof.
  unfold next_token.
  destruct (cut_spec l) as [(sg & b & rs & -> & Hs & Hb & ->)|[H ->]].
  - destruct (len sg <? limit); [|discriminate]. intros [= <- <-].
    rewrite length_app. cbn. lia.
  - destruct (len l <? limit); [|discriminate]. destruct l; [discriminate|].
    intros [= <- <-]. cbn. lia.
Qed.

End SplitterFacts.

Module ScannerFacts.
Import Splitter ChunkSpec SplitterFacts.

Lemma pass_break s seg b rest :
  window s = seg ++ b :: rest -> unbroken seg -> is_break b = true ->
  scan_pass s =
    Return true (with_token (with_window s (start s + (len seg + 1)) rest) (Some seg)).
Proof.
  intros Hw Hs Hb. unfold scan_pass, buf_end. rewrite Hw.
  rewrite scanLinesCR_break by assumption.
  rewrite slice_from_succ_app.
  pose proof (len_nonneg seg). pose proof (len_nonneg rest).
  replace (start s <? start s + len (seg ++ b :: rest)) with true
    by (symmetry; apply Z.ltb_lt; rewrite len_app, len_cons; lia).
  cbn [orb].
  replace (len seg + 1 <? 0) with false by (symmetry; apply Z.ltb_ge; lia).
  replace (start s + len (seg ++ b :: rest) - start s <? len seg + 1) with false
    by (symmetry; apply Z.ltb_ge; rewrite len_app, len_cons; lia).
  reflexivity.
Qed.

Lemma pass_flush s x t :
  err s = Some EOF -> window s = x :: t -> unbroken (x :: t) ->
  scan_pass s =
    Return true (with_token (with_window s (start s + len (x :: t)) []) (Some (x :: t))).
Proof.
  intros He Hw Hu. unfold scan_pass, buf_end. rewrite Hw, He.
  rewrite scanLinesCR_unbroken by assumption.
  pose proof (len_nonneg t).
  cbn [is_nil negb orb andb]. rewrite orb_true_r.
  replace (0 <? len (x :: t)) with true
    by (symmetry; apply Z.ltb_lt; rewrite len_cons; lia).
  replace (len (x :: t) <? 0) with false
    by (symmetry; apply Z.ltb_ge; rewrite len_cons; lia).
  replace (start s + len (x :: t) - start s <? len (x :: t)) with false
    by (symmetry; apply Z.ltb_ge; lia).
  replace (slice_from (len (x :: t)) (x :: t)) with (@nil byte).
  - reflexivity.
  - pose proof (slice_from_app (x :: t) []) as E. rewrite app_nil_r in E. auto.
Qed.

Lemma pass_end s :
  err s = Some EOF -> window s = [] ->
  exists s', scan_pass s = Return false s'.
Proof.
  intros He Hw. unfold scan_pass, buf_end. rewrite Hw, He.
  cbn. rewrite orb_true_r.
  replace (start s + 0 - start s <? 0) with false
    by (symmetry; apply Z.ltb_ge; lia).
  cbn. rewrite ?He. cbn. eexists. reflexivity.
Qed.

(** With no error yet and no boundary byte in the window, a pass goes on
    to read; the scanner it reads with differs from [s] in its token
    only. *)
Lemma pass_fill s :
  err s = None -> unbroken (window s) ->
  exists tok, scan_pass s = fill (with_token s tok).
Proof.
  intros He Hu. unfold scan_pass, buf_end. rewrite He.
  rewrite scanLinesCR_unbroken by assumption. cbn [is_nil negb orb andb].
  destruct (start s <? start s + len (window s)) eqn:Hlt.
  - replace (0 <? 0) with false by reflexivity.
    replace (start s + len (window s) - start s <? 0) with false
      by (symmetry; apply Z.ltb_ge; pose proof (len_nonneg (window s)); lia).
    exists None.
    destruct s; cbn in *. subst. unfold with_token, with_window, slice_from; cbn.
    rewrite Z.add_0_r. reflexivity.
  - exists (token s). destruct s; cbn in *; subst; reflexivity.
Qed.

End ScannerFacts.

Module FillFacts.
Import Splitter ChunkSpec ProofTactics SplitterFacts ScannerFacts.

Lemma Read_spec rd space :
  0 < space ->
  (pending rd = [] /\ Read rd space = ([], Some EOF, rd))
  \/ (exists data rd',
        Read rd space = (data, None, rd') /\
        0 < len data <= space /\
        data ++ pending rd' = pending rd).
Proof.
  intros Hs. unfold Read. destruct (pending rd) as [|x p] eqn:Hp; [left; auto|right].
  set (want := match sched rd with [] => space | k :: _ => Z.of_nat (S k) end).
  assert (0 < want) by (subst want; destruct (sched rd); lia).
  eexists _, _. split; [reflexivity|]. cbn [pending]. split.
  - rewrite len_slice_to, len_cons. pose proof (len_nonneg p). lia.
  - apply slice_join.
Qed.

Lemma maxInt_half : maxInt / 2 = 4611686018427387903.
Proof. reflexivity. Qed.

Lemma shift_spec s :
  scanner_ok s -> err s = None ->
  scanner_ok (shift_data s) /\ err (shift_data s) = None /\
  window (shift_data s) = window s /\ r (shift_data s) = r s /\
  maxTokenSize (shift_data s) = maxTokenSize s /\
  (buf_end (shift_data s) = buf_len (shift_data s) -> start (shift_data s) = 0).
Proof.
  intros Hok He. unfold shift_data.
  destruct ((0 <? start s) && ((buf_end s =? buf_len s) || (buf_len s / 2 <? start s)))
    eqn:Hc.
  - open_scanner s. subst e. pose proof (len_nonneg w).
    apply andb_prop in Hc as [H0 _]. apply Z.ltb_lt in H0.
    repeat split; try tauto; try lia.
  - refine (conj Hok (conj He (conj eq_refl (conj eq_refl (conj eq_refl _))))).
    intros Hfull.
    apply andb_false_iff in Hc as [H0|H1].
    + apply Z.ltb_ge in H0. destruct Hok as (_ & _ & ? & _). lia.
    + apply orb_false_elim in H1 as [H1 _]. apply Z.eqb_neq in H1. contradiction.
Qed.

Lemma grow_spec s :
  scanner_ok s -> err s = None -> (buf_end s = buf_len s -> start s = 0) ->
  (exists failed, grow s = inl failed /\ maxTokenSize s <= len (window s))
  \/ (exists s', grow s = inr s' /\ scanner_ok s' /\ err s' = None /\
                 window s' = window s /\ r s' = r s /\
                 maxTokenSize s' = maxTokenSize s /\ buf_end s' < buf_len s').
Proof.
  intros Hok He Hfull. unfold grow. rewrite maxInt_half.
  destruct (buf_end s =? buf_len s) eqn:Hf.
  - apply Z.eqb_eq in Hf. specialize (Hfull Hf).
    destruct ((maxTokenSize s <=? buf_len s) || (4611686018427387903 <? buf_len s)) eqn:Hm.
    + left. eexists. split; [reflexivity|].
      open_scanner s. rewrite maxInt_half in Hok.
      apply orb_true_iff in Hm as [H|H]; [apply Z.leb_le in H|apply Z.ltb_lt in H]; lia.
    + right. eexists. split; [reflexivity|].
      apply orb_false_elim in Hm as [H1 H2]. apply Z.leb_gt in H1.
      open_scanner s. subst e. pose proof (len_nonneg w).
      assert ((L * 2 =? 0) = false) as -> by (apply Z.eqb_neq; lia).
      repeat split; try tauto; try lia.
  - right. exists s. apply Z.eqb_neq in Hf.
    refine (conj eq_refl (conj Hok (conj He (conj eq_refl (conj eq_refl (conj eq_refl _)))))).
    destruct Hok as (_ & _ & _ & ? & _). unfold buf_end in *. lia.
Qed.

Lemma read_more_spec s :
  scanner_ok s -> err s = None -> buf_end s < buf_len s ->
  scanner_ok (read_more s) /\ unread (read_more s) = unread s /\
  maxTokenSize (read_more s) = maxTokenSize s /\
  (passes_left (read_more s) < passes_left s)%nat.
Proof.
  intros Hok He Hroom. unfold read_more.
  destruct (Read_spec (r s) (buf_len s - buf_end s) ltac:(lia))
    as [[Hp ->]|(data & rd' & -> & Hd & Hj)].
  - open_scanner s. subst e. cbn in *. rewrite app_nil_r, Hp.
    repeat split; try tauto; try lia.
  - replace (0 <? len data) with true by (symmetry; apply Z.ltb_lt; lia).
    open_scanner s. subst e. cbn in *. rewrite <- Hj.
    rewrite len_app, <- app_assoc, length_app.
    assert (0 < List.length data)%nat by (unfold len in Hd; lia).
    repeat split; try tauto; try lia.
Qed.

Lemma fill_spec s :
  err s = None -> scanner_ok s ->
  (exists s', fill s = Return false s' /\ maxTokenSize s <= len (window s))
  \/ (exists s', fill s = Again s' /\ scanner_ok s' /\ unread s' = unread s /\
                 maxTokenSize s' = maxTokenSize s /\
                 (passes_left s' < passes_left s)%nat).
Proof.
  intros He Hok. unfold fill.
  destruct (shift_spec s Hok He) as (Hok1 & He1 & Hw1 & Hr1 & HM1 & Hfull).
  destruct (grow_spec _ Hok1 He1 Hfull)
    as [(f & -> & Hlong)|(s2 & -> & Hok2 & He2 & Hw2 & Hr2 & HM2 & Hroom)].
  - left. eexists. split; [reflexivity|]. rewrite <- HM1, <- Hw1. exact Hlong.
  - right. eexists. split; [reflexivity|].
    destruct (read_more_spec s2 Hok2 He2 Hroom) as (Hok3 & Hu & HM3 & Hp).
    split; [assumption|].
    assert (unread s2 = unread s) by (unfold unread; congruence).
    assert (passes_left s2 = passes_left s)
      by (unfold passes_left; rewrite He, He2, Hr2, Hr1; reflexivity).
    repeat split; try congruence; lia.
Qed.

End FillFacts.

Module ScanFacts.
Import Splitter ChunkSpec SplitterFacts ScannerFacts FillFacts.

(** What one call of [Scan] does, whatever the reader hands over at each
    read: it returns [true] with the next token exactly when the first
    segment of the unread bytes is shorter than the limit. *)
Lemma Scan_loop_spec : forall n s,
  scanner_ok s -> (passes_left s < n)%nat ->
  exists s',
    Scan_loop n s = Some (found (maxTokenSize s) (unread s), s') /\
    forall seg rest,
      next_token (maxTokenSize s) (unread s) = Some (seg, rest) ->
      token s' = Some seg /\ scanner_ok s' /\ unread s' = rest /\
      maxTokenSize s' = maxTokenSize s.
Proof.
  induction n as [|n IH]; intros s Hok Hfuel; [lia|].
  cbn [Scan_loop].
  destruct (window_cases (window s)) as [(seg & b & rest & Hw & Hs & Hb)|Hu].
  - (* a boundary byte is in the window *)
    rewrite (pass_break s seg b rest Hw Hs Hb).
    assert (Hcut : next_token (maxTokenSize s) (unread s)
                   = Some (seg, rest ++ pending (r s))).
    { unfold next_token, unread. rewrite Hw, <- app_assoc. cbn [app].
      rewrite cut_break by assumption.
      replace (len seg <? maxTokenSize s) with true; [reflexivity|].
      symmetry. apply Z.ltb_lt.
      destruct Hok as (? & _ & ? & ? & _). unfold buf_end in *.
      rewrite Hw, len_app, len_cons in *. pose proof (len_nonneg rest). lia. }
    eexists. unfold found. rewrite Hcut. split; [reflexivity|].
    intros sg rs [= <- <-].
    destruct Hok as (HL & HM & Hst & Hend & Herr).
    unfold scanner_ok, buf_end, unread in *. cbn.
    rewrite Hw, len_app, len_cons in *.
    pose proof (len_nonneg seg). pose proof (len_nonneg rest).
    rewrite maxInt_half in HM.
    repeat split; try lia.
    destruct Herr as [He|(He & Hp & Hlt)]; [left; assumption|right].
    repeat split; auto. lia.
  - destruct (err s) as [e|] eqn:He.
    + (* the reader has reported the end of the stream *)
      assert (e = EOF /\ pending (r s) = [] /\ buf_end s < buf_len s)
        as (-> & Hp & Hroom).
      { destruct Hok as (_ & _ & _ & _ & [H|(H & ? & ?)]); [congruence|].
        rewrite He in H. injection H as ->. auto. }
      assert (Hun : unread s = window s) by (unfold unread; rewrite Hp; apply app_nil_r).
      destruct (window s) as [|x t] eqn:Hw.
      * destruct (pass_end s He Hw) as (s' & ->).
        exists s'. unfold found, next_token. rewrite Hun. cbn.
        destruct (0 <? maxTokenSize s); (split; [reflexivity|discriminate]).
      * rewrite (pass_flush s x t He Hw Hu).
        assert (Hcut : next_token (maxTokenSize s) (unread s) = Some (x :: t, [])).
        { unfold next_token. rewrite Hun, cut_unbroken by assumption.
          replace (len (x :: t) <? maxTokenSize s) with true; [reflexivity|].
          symmetry. apply Z.ltb_lt.
          destruct Hok as (? & _ & ? & ? & _). unfold buf_end in *.
          rewrite Hw in *. lia. }
        eexists. unfold found. rewrite Hcut. split; [reflexivity|].
        intros sg rs [= <- <-].
        destruct Hok as (HL & HM & Hst & Hend & _).
        unfold scanner_ok, buf_end, unread in *.
        cbn [with_token with_window r maxTokenSize token buf_len start window err app].
        rewrite Hw in *. rewrite Hp, He.
        unfold len in *. cbn [List.length] in *.
        rewrite maxInt_half in *.
        repeat split; try lia.
        right. repeat split; auto. lia.
    + (* more bytes are needed *)
      destruct (pass_fill s He Hu) as (tok & ->).
      set (s0 := with_token s tok).
      assert (Hok0 : scanner_ok s0) by (destruct s; exact Hok).
      assert (He0 : err s0 = None) by (destruct s; exact He).
      destruct (fill_spec s0 He0 Hok0)
        as [(s' & -> & Hlong)|(s' & -> & Hok' & Hun' & HM' & Hless)].
      * (* the window is full at the limit *)
        exists s'.
        assert (Hnone : next_token (maxTokenSize s) (unread s) = None).
        { unfold next_token, unread. rewrite cut_prefix by assumption.
          replace (len (window s ++ fst (cut (pending (r s)))) <? maxTokenSize s)
            with false; [reflexivity|].
          symmetry. apply Z.ltb_ge. rewrite len_app.
          pose proof (len_nonneg (fst (cut (pending (r s))))).
          replace (maxTokenSize s) with (maxTokenSize s0) by (destruct s; reflexivity).
          replace (window s) with (window s0) by (destruct s; reflexivity). lia. }
        unfold found. rewrite Hnone. split; [reflexivity|discriminate].
      * (* bytes were read, or the end of the stream was recorded *)
        assert (Hun0 : unread s0 = unread s) by (destruct s; reflexivity).
        assert (HM0 : maxTokenSize s0 = maxTokenSize s) by (destruct s; reflexivity).
        assert (Hp0 : passes_left s0 = passes_left s) by (destruct s; reflexivity).
        destruct (IH s' Hok' ltac:(lia)) as (s'' & Hrun & Hnext).
        rewrite Hun', HM', Hun0, HM0 in *.
        exists s''. split; [exact Hrun|]. exact Hnext.
Qed.

Lemma Scan_spec s :
  scanner_ok s ->
  exists s',
    Scan s = Some (found (maxTokenSize s) (unread s), s') /\
    forall seg rest,
      next_token (maxTokenSize s) (unread s) = Some (seg, rest) ->
      token s' = Some seg /\ scanner_ok s' /\ unread s' = rest /\
      maxTokenSize s' = maxTokenSize s.
Proof.
  intros Hok. apply Scan_loop_spec; [assumption|].
  unfold scan_fuel, passes_left. destruct (is_nil (err s)); lia.
Qed.

End ScanFacts.

Module ReaderFacts.
Import Splitter Emit ChunkSpec RunSpec SplitterFacts ScannerFacts FillFacts ScanFacts.

Lemma streamReader_loop_spec : forall n sc w operationID isStderr,
  scanner_ok sc -> (List.length (unread sc) < n)%nat ->
  streamReader_loop n w operationID sc isStderr
  = Some (emit_lines w operationID (lines_of sc) isStderr).
Proof.
  induction n as [|n IH]; intros sc w operationID isStderr Hok Hfuel; [lia|].
  cbn [streamReader_loop].
  destruct (Scan_spec sc Hok) as (sc' & -> & Hnext).
  unfold lines_of. rewrite within_segments. unfold found.
  destruct (next_token (maxTokenSize sc) (unread sc)) as [[seg rest]|] eqn:Hcut.
  - destruct (Hnext seg rest eq_refl) as (Htok & Hok' & Hun & HM).
    apply next_token_shorter in Hcut.
    rewrite IH by (try assumption; rewrite Hun; lia).
    unfold lines_of, Text. rewrite Htok, Hun, HM. reflexivity.
  - reflexivity.
Qed.

Lemma NewScanner_ok rd cap max :
  0 < cap <= max -> max <= maxInt / 2 -> scanner_ok (NewScanner rd cap max).
Proof.
  intros Hc Hm. unfold scanner_ok, NewScanner, buf_end. cbn.
  rewrite maxInt_half in *. repeat split; try lia. left; reflexivity.
Qed.

(** [streamReader] always returns, and emits the lines of its stream up to
    the first segment that does not fit the buffer. *)
Lemma streamReader_spec w operationID rd isStderr :
  streamReader w operationID rd isStderr
  = Some (emit_lines w operationID (stream_lines rd) isStderr).
Proof.
  unfold streamReader. rewrite streamReader_loop_spec.
  - reflexivity.
  - apply NewScanner_ok; [unfold initial_buffer, max_buffer; lia|].
    rewrite maxInt_half. unfold max_buffer. lia.
  - unfold stream_fuel. cbn. unfold unread. cbn. lia.
Qed.

Lemma emissions_emit_line w operationID line isStderr :
  emissions (emit_line w operationID line isStderr)
  = emissions w ++ [Output operationID line isStderr].
Proof.
  unfold emit_line, EmitOutput, conn_Emit, emissions, write_log. cbn.
  destruct (match transport w with [] => None | a :: _ => a end);
    cbn; rewrite map_app; reflexivity.
Qed.

Lemma emissions_emit_lines operationID isStderr lines : forall w,
  emissions (emit_lines w operationID lines isStderr)
  = emissions w ++ map (fun line => Output operationID line isStderr) lines.
Proof.
  unfold emit_lines.
  induction lines as [|l ls IH]; intros w; cbn [fold_left map].
  - symmetry. apply app_nil_r.
  - rewrite IH, emissions_emit_line, <- app_assoc. reflexivity.
Qed.

End ReaderFacts.

Module RunFacts.
Import Splitter Emit Runner ChunkSpec RunSpec ProofTactics.
Import SplitterFacts ScannerFacts FillFacts ScanFacts ReaderFacts.

Lemma Scan_total sc : scanner_ok sc -> exists b sc', Scan sc = Some (b, sc').
Proof. intros H. destruct (Scan_spec sc H) as (sc' & E & _). eauto. Qed.

Lemma Scan_true sc sc' :
  scanner_ok sc -> Scan sc = Some (true, sc') ->
  lines_of sc = (Text sc' ++ [LF]) :: lines_of sc' /\ scanner_ok sc' /\
  (List.length (unread sc') < List.length (unread sc))%nat.
Proof.
  intros Hok E. destruct (Scan_spec sc Hok) as (s1 & E1 & Hnext).
  rewrite E in E1. injection E1 as Hf <-.
  unfold found in Hf. unfold lines_of at 1. rewrite within_segments.
  destruct (next_token (maxTokenSize sc) (unread sc)) as [[seg rest]|] eqn:Hcut;
    [|discriminate].
  destruct (Hnext seg rest eq_refl) as (Htok & Hok' & Hun & HM).
  apply next_token_shorter in Hcut.
  unfold lines_of, Text. rewrite Htok, Hun, HM. cbn [map].
  split; [reflexivity|]. split; [assumption|exact Hcut].
Qed.

Lemma Scan_false sc sc' :
  scanner_ok sc -> Scan sc = Some (false, sc') -> lines_of sc = [].
Proof.
  intros Hok E. destruct (Scan_spec sc Hok) as (s1 & E1 & _).
  rewrite E in E1. injection E1 as Hf <-.
  unfold found in Hf. unfold lines_of. rewrite within_segments.
  destruct (next_token (maxTokenSize sc) (unread sc)) as [[seg rest]|];
    [discriminate|reflexivity].
Qed.

Lemma from_stream_app b outs more :
  from_stream b (outs ++ more) = from_stream b outs ++ from_stream b more.
Proof. unfold from_stream. rewrite filter_app, map_app. reflexivity. Qed.

Lemma emissions_finalize w id exit :
  emissions (finalize w id exit) = emissions w ++ [completion_signal id exit].
Proof.
  unfold finalize, completion_signal.
  destruct (completion (Exec.Wait exit)) as [c m].
  unfold EmitComplete, conn_Emit, emissions. cbn. rewrite map_app. reflexivity.
Qed.

(** Every step keeps [run_inv]. *)
Lemma step_keeps_inv id ol el exit base t w tr c' :
  run_inv id ol el exit t tr ->
  emissions w = base ++ tr ->
  step (t, w) c' ->
  exists tr', emissions (snd c') = base ++ tr' /\ run_inv id ol el exit (fst c') tr'.
Proof.
  intros (Hid & Hex & Hok1 & Hok2 & Hwg & Hfin & outs & Ho & He & Htr) Hw Hstep.
  subst id exit.
  inversion Hstep as [t0 w0 b sc sc' Htask Hscan | t0 w0 b sc sc' Htask Hscan
                     | t0 w0 Hf Hz | t0 w0 Hf]; subst t0 w0 c'; cbn [fst snd].
  - (* a reader emits a line *)
    assert (Hsc : scanner_ok sc)
      by (destruct b; cbn in Htask; rewrite Htask in *; assumption).
    destruct (Scan_true sc sc' Hsc Hscan) as (Hlines & Hok' & _).
    assert (Hwait : finalizer t = AtWgWait).
    { destruct (finalizer t) eqn:Hf; [reflexivity| |];
        (destruct Hfin as [H1 H2]; [congruence|]);
        destruct b; cbn in Htask; congruence. }
    exists (tr ++ [Output (operationID t) (Text sc' ++ [LF]) b]).
    split; [rewrite emissions_emit_line, Hw, app_assoc; reflexivity|].
    unfold run_inv; cbn [set_task operationID Runner.exit stdoutTask stderrTask wg finalizer].
    rewrite Hwait in *.
    destruct b; cbn [task_of] in Htask; rewrite Htask in *;
      cbn [task_ok task_lines running] in *.
    + split_inv; try reflexivity; try assumption; try congruence; try exact I.
      exists (outs ++ [(true, Text sc' ++ [LF])]).
      rewrite !from_stream_app. unfold from_stream at 2 4.
      cbn [filter fst snd Bool.eqb map].
      rewrite Hlines in *. rewrite ?app_nil_r, <- ?app_assoc. cbn [app].
      repeat split; try assumption.
      rewrite Htr, map_app, !app_nil_r. reflexivity.
    + split_inv; try reflexivity; try assumption; try congruence; try exact I.
      exists (outs ++ [(false, Text sc' ++ [LF])]).
      rewrite !from_stream_app. unfold from_stream at 2 4.
      cbn [filter fst snd Bool.eqb map].
      rewrite Hlines in *. rewrite ?app_nil_r, <- ?app_assoc. cbn [app].
      repeat split; try assumption.
      rewrite Htr, map_app, !app_nil_r. reflexivity.
  - (* a reader returns *)
    assert (Hsc : scanner_ok sc)
      by (destruct b; cbn in Htask; rewrite Htask in *; assumption).
    pose proof (Scan_false sc sc' Hsc Hscan) as Hlines.
    assert (Hwait : finalizer t = AtWgWait).
    { destruct (finalizer t) eqn:Hf; [reflexivity| |];
        (destruct Hfin as [H1 H2]; [congruence|]);
        destruct b; cbn in Htask; congruence. }
    exists tr. split; [assumption|].
    unfold run_inv; cbn [set_task operationID Runner.exit stdoutTask stderrTask wg finalizer].
    rewrite Hwait in *.
    destruct b; cbn [task_of] in Htask; rewrite Htask in *;
      cbn [task_ok task_lines running] in *; rewrite Hlines in *;
      (split_inv; try reflexivity; try assumption; try congruence; try lia; try exact I;
       exists outs; rewrite ?app_nil_r in *; repeat split; assumption).
  - (* the finalizer passes wg.Wait() *)
    exists tr. split; [assumption|].
    unfold run_inv. cbn [set_finalizer operationID Runner.exit stdoutTask stderrTask wg finalizer].
    rewrite Hf in *.
    assert (stdoutTask t = ReaderDone /\ stderrTask t = ReaderDone) as [H1 H2].
    { destruct (stdoutTask t), (stderrTask t); cbn in Hwg; try lia; auto. }
    split_inv; try reflexivity; try assumption; try (intros _; split; assumption).
    exists outs. repeat split; assumption.
  - (* the finalizer emits Complete *)
    exists (tr ++ [completion_signal (operationID t) (Runner.exit t)]).
    split; [rewrite emissions_finalize, Hw, app_assoc; reflexivity|].
    unfold run_inv. cbn [set_finalizer operationID Runner.exit stdoutTask stderrTask wg finalizer].
    rewrite Hf in *. destruct Hfin as [H1 H2]; [discriminate|].
    split_inv; try reflexivity; try assumption; try (intros _; split; assumption).
    exists outs. repeat split; try assumption.
    rewrite Htr, app_nil_r. congruence.
Qed.

End RunFacts.

Module ExecutionFacts.
Import Splitter Emit Runner ChunkSpec RunSpec ProofTactics.
Import SplitterFacts ScannerFacts FillFacts ScanFacts ReaderFacts RunFacts.

Lemma initial_scanner_ok rd : scanner_ok (NewScanner rd initial_buffer max_buffer).
Proof.
  apply NewScanner_ok; [unfold initial_buffer, max_buffer; lia|].
  rewrite maxInt_half. unfold max_buffer. lia.
Qed.

Lemma start_inv id stdout stderr exit :
  run_inv id (stream_lines stdout) (stream_lines stderr) exit
          (start_tasks id stdout stderr exit) [].
Proof.
  split_inv; cbn; try reflexivity; try apply initial_scanner_ok.
  - intros H; congruence.
  - exists []. cbn. repeat split; reflexivity.
Qed.

Lemma steps_keep_inv id ol el exit base t0 w0 c :
  run_inv id ol el exit t0 [] ->
  emissions w0 = base ->
  steps (t0, w0) c ->
  exists tr, emissions (snd c) = base ++ tr /\ run_inv id ol el exit (fst c) tr.
Proof.
  intros H0 Hb Hsteps.
  remember (t0, w0) as c0 eqn:Hc0.
  induction Hsteps as [c|c1 c2 c3 H12 IH H23].
  - subst c. exists []. cbn. rewrite app_nil_r. auto.
  - destruct (IH Hc0) as (tr & Hw & Hinv).
    destruct c2 as [t2 w2]. cbn [fst snd] in *.
    eapply step_keeps_inv; eauto.
Qed.

(** While the finalizer has not finished, some goroutine can take a step. *)
Lemma progress id ol el exit t tr w :
  run_inv id ol el exit t tr -> finalizer t <> Finished ->
  exists c', step (t, w) c'.
Proof.
  intros (_ & _ & Hok1 & Hok2 & Hwg & Hfin & _) Hnf.
  destruct (stdoutTask t) as [sc|] eqn:H1.
  { destruct (Scan_total sc Hok1) as ([|] & sc' & E).
    - eexists. eapply (step_chunk t w false); [exact H1|exact E].
    - eexists. eapply (step_reader_done t w false); [exact H1|exact E]. }
  destruct (stderrTask t) as [sc|] eqn:H2.
  { destruct (Scan_total sc Hok2) as ([|] & sc' & E).
    - eexists. eapply (step_chunk t w true); [exact H2|exact E].
    - eexists. eapply (step_reader_done t w true); [exact H2|exact E]. }
  cbn in Hwg.
  destruct (finalizer t) eqn:Hf; [| |congruence].
  - eexists. apply step_wg_wait; assumption.
  - eexists. apply step_finalize; assumption.
Qed.

(** Every step uses up one of the steps that are left. *)
Lemma step_decreases id ol el exit t tr w c' :
  run_inv id ol el exit t tr -> step (t, w) c' ->
  (steps_left (fst c') < steps_left t)%nat.
Proof.
  intros (_ & _ & Hok1 & Hok2 & Hwg & Hfin & _) Hstep.
  inversion Hstep as [t0 w0 b sc sc' Htask Hscan | t0 w0 b sc sc' Htask Hscan
                     | t0 w0 Hf Hz | t0 w0 Hf]; subst t0 w0 c'; cbn [fst snd].
  - assert (Hsc : scanner_ok sc)
      by (destruct b; cbn in Htask; rewrite Htask in *; assumption).
    destruct (Scan_true sc sc' Hsc Hscan) as (_ & _ & Hless).
    unfold steps_left.
    destruct b; cbn [task_of] in Htask; cbn; rewrite Htask; cbn; lia.
  - unfold steps_left.
    destruct b; cbn [task_of] in Htask; cbn; rewrite Htask; cbn; lia.
  - unfold steps_left. cbn. rewrite Hf. lia.
  - unfold steps_left. cbn. rewrite Hf. lia.
Qed.

(** Once the finalizer has finished nothing moves any more. *)
Lemma finished_is_final id ol el exit t tr w c' :
  run_inv id ol el exit t tr -> finalizer t = Finished -> ~ step (t, w) c'.
Proof.
  intros (_ & _ & _ & _ & _ & Hfin & _) Hf Hstep.
  destruct Hfin as [H1 H2]; [congruence|].
  inversion Hstep as [t0 w0 b sc sc' Htask Hscan | t0 w0 b sc sc' Htask Hscan
                     | t0 w0 Hf' Hz | t0 w0 Hf']; subst;
    try (destruct b; cbn in Htask; congruence); congruence.
Qed.

End ExecutionFacts.

Module OperationFacts.
Import Splitter Emit Runner ChunkSpec RunSpec.
Import SplitterFacts ScannerFacts FillFacts ScanFacts ReaderFacts RunFacts ExecutionFacts.

Lemma RunCommandStreaming_started p stdout stderr exit id p' t0 :
  RunCommandStreaming p (Started stdout stderr exit) = ((id, None), p', Some t0) ->
  id = fst (OpId.GenerateOperationID p) /\
  t0 = start_tasks id stdout stderr exit.
Proof.
  unfold RunCommandStreaming, OpId.GenerateOperationID. cbn.
  intros [= <- <- <-]. split; reflexivity.
Qed.

Lemma run_summary p stdout stderr exit w0 id p' t0 t w :
  RunCommandStreaming p (Started stdout stderr exit) = ((id, None), p', Some t0) ->
  steps (t0, w0) (t, w) ->
  exists tr, emissions w = emissions w0 ++ tr /\
             run_inv id (stream_lines stdout) (stream_lines stderr) exit t tr.
Proof.
  intros Hrun Hsteps.
  destruct (RunCommandStreaming_started _ _ _ _ _ _ _ Hrun) as [_ ->].
  exact (steps_keep_inv id _ _ exit (emissions w0) _ w0 (t, w)
           (start_inv id stdout stderr exit) eq_refl Hsteps).
Qed.

Lemma steps_step_first c1 c2 c3 : step c1 c2 -> steps c2 c3 -> steps c1 c3.
Proof.
  intros H12 H23. induction H23 as [c|c2 c3 c4 H23 IH H34].
  - eapply steps_more; [apply steps_refl|exact H12].
  - eapply steps_more; [exact (IH H12)|exact H34].
Qed.

(** From every state of an execution the operation can run to its end. *)
Lemma can_finish id ol el exit base : forall n t tr w,
  (steps_left t < n)%nat -> run_inv id ol el exit t tr ->
  emissions w = base ++ tr ->
  exists c', steps (t, w) c' /\ finalizer (fst c') = Finished.
Proof.
  induction n as [|n IH]; intros t tr w Hn Hinv Hw; [lia|].
  destruct (finalizer t) eqn:Hf.
  3: { exists (t, w). split; [apply steps_refl|exact Hf]. }
  all: destruct (progress id ol el exit t tr w Hinv ltac:(congruence)) as ([t1 w1] & Hstep);
    pose proof (step_decreases _ _ _ _ _ _ _ _ Hinv Hstep) as Hless;
    destruct (step_keeps_inv id ol el exit base t w tr (t1, w1) Hinv Hw Hstep)
      as (tr1 & Hw1 & Hinv1);
    cbn [fst snd] in *;
    destruct (IH t1 tr1 w1 ltac:(lia) Hinv1 Hw1) as (c' & Hs & Hfin);
    exists c'; split; [eapply steps_step_first; eauto|exact Hfin].
Qed.

(** Lines that all come from one stream. *)
Lemma single_stream outs :
  from_stream true outs = [] ->
  map (fun o => (false, o)) (from_stream false outs) = outs.
Proof.
  unfold from_stream. induction outs as [|[b l] outs IH]; cbn; [reflexivity|].
  destruct b; cbn; [discriminate|]. intros H. rewrite IH by assumption. reflexivity.
Qed.

End OperationFacts.

Module ChunkFacts.
Import Splitter Emit Runner ChunkSpec RunSpec Samples.
Import SplitterFacts ScannerFacts FillFacts ScanFacts ReaderFacts.

Lemma emits_stream_lines w id rd isStderr : emits w id rd isStderr (stream_lines rd).
Proof.
  unfold emits. rewrite streamReader_spec. eexists. split; [reflexivity|].
  apply emissions_emit_lines.
Qed.

Lemma emits_unique w id rd isStderr l1 l2 :
  emits w id rd isStderr l1 -> emits w id rd isStderr l2 -> l1 = l2.
Proof.
  intros (w1 & E1 & H1) (w2 & E2 & H2). rewrite E1 in E2. injection E2 as <-.
  rewrite H1 in H2. apply app_inv_head in H2. clear H1 E1.
  revert l2 H2. induction l1 as [|a l1 IH]; intros [|b l2] H; cbn in H;
    try discriminate; [reflexivity|].
  injection H as Ha H. subst b. f_equal. exact (IH _ H).
Qed.

Lemma within_all limit segs :
  Forall (fun seg => len seg < limit) segs -> within limit segs = segs.
Proof.
  induction 1 as [|seg more Hs _ IH]; cbn; [reflexivity|].
  replace (len seg <? limit) with true by (symmetry; apply Z.ltb_lt; assumption).
  rewrite IH. reflexivity.
Qed.

Lemma within_app limit front back :
  Forall (fun seg => len seg < limit) front ->
  within limit (front ++ back) = front ++ within limit back.
Proof.
  induction 1 as [|seg more Hs _ IH]; cbn; [reflexivity|].
  replace (len seg <? limit) with true by (symmetry; apply Z.ltb_lt; assumption).
  rewrite IH. reflexivity.
Qed.

Lemma segments_nonempty l : l <> [] -> segments l <> [].
Proof.
  destruct l as [|x t]; [congruence|]. intros _. cbn.
  destruct (is_break x); [discriminate|]. destruct (segments t); discriminate.
Qed.

Lemma segments_after_break front b rest :
  is_break b = true ->
  segments (front ++ b :: rest) = segments (front ++ [b]) ++ segments rest.
Proof.
  intros Hb. induction front as [|x t IH]; cbn [app segments].
  - rewrite Hb. reflexivity.
  - destruct (is_break x); [rewrite IH; reflexivity|].
    rewrite IH.
    destruct (segments (t ++ [b])) as [|seg more] eqn:E; [|reflexivity].
    exfalso. apply (segments_nonempty (t ++ [b])); [|assumption].
    destruct t; discriminate.
Qed.

Lemma segments_closed front rest :
  ends_at_break front -> segments (front ++ rest) = segments front ++ segments rest.
Proof.
  intros [->|(p & b & -> & Hb)]; [reflexivity|].
  rewrite <- app_assoc. cbn [app]. apply segments_after_break. assumption.
Qed.

(** ** Long lines *)

Lemma stream_lines_of l sched :
  stream_lines (mkReader l sched) = map chunk_of (within max_buffer (segments l)).
Proof. reflexivity. Qed.

(** A stream that starts with an unbroken run of the size of the buffer
    yields nothing. *)
Lemma full_line_first line rest :
  unbroken line -> max_buffer <= len line ->
  within max_buffer (segments (line ++ rest)) = [].
Proof.
  intros Hu Hlen. rewrite within_segments. unfold next_token.
  rewrite (cut_prefix line rest Hu).
  replace (len (line ++ fst (cut rest)) <? max_buffer) with false; [reflexivity|].
  symmetry. apply Z.ltb_ge. rewrite len_app.
  pose proof (len_nonneg (fst (cut rest))). lia.
Qed.

Lemma full_line_emits_nothing w id line rest sched isStderr :
  unbroken line -> max_buffer <= len line ->
  emits w id (mkReader (line ++ rest) sched) isStderr [].
Proof.
  intros Hu Hlen.
  pose proof (emits_stream_lines w id (mkReader (line ++ rest) sched) isStderr) as H.
  rewrite stream_lines_of, (full_line_first line rest Hu Hlen) in H. exact H.
Qed.

Lemma len_long_line : len long_line = max_buffer.
Proof.
  unfold len, long_line. rewrite repeat_length. apply Z2Nat.id.
  unfold max_buffer. lia.
Qed.

Lemma long_line_unbroken : unbroken long_line.
Proof.
  unfold unbroken, long_line. apply Forall_forall. intros b Hb.
  apply repeat_spec in Hb. subst b. reflexivity.
Qed.

Lemma long_line_not_empty : long_line <> [].
Proof.
  intros E. pose proof len_long_line as H. rewrite E in H.
  unfold max_buffer in H. cbn in H. discriminate.
Qed.

Lemma long_line_emits_nothing w id rest sched isStderr :
  emits w id (mkReader (long_line ++ rest) sched) isStderr [].
Proof.
  apply full_line_emits_nothing; [apply long_line_unbroken|].
  rewrite len_long_line. apply Z.le_refl.
Qed.

End ChunkFacts.

Module BufferFacts.
Import Splitter Emit Runner ChunkSpec RunSpec Samples.
Import SplitterFacts ScannerFacts FillFacts ScanFacts ReaderFacts.

Lemma setErr_sizes s e :
  start (setErr s e) = start s /\ window (setErr s e) = window s /\
  buf_len (setErr s e) = buf_len s /\ maxTokenSize (setErr s e) = maxTokenSize s.
Proof. unfold setErr. destruct (err s) as [[]|]; cbn; auto. Qed.

Lemma buffer_ok_setErr s e : buffer_ok s -> buffer_ok (setErr s e).
Proof.
  unfold buffer_ok. destruct (setErr_sizes s e) as (-> & -> & -> & ->). auto.
Qed.

Lemma buffer_ok_shift s : buffer_ok s -> buffer_ok (shift_data s).
Proof.
  unfold shift_data, buffer_ok.
  destruct ((0 <? start s) && ((buf_end s =? buf_len s) || (buf_len s / 2 <? start s)));
    [|auto]. cbn. pose proof (len_nonneg (window s)). lia.
Qed.

Lemma buffer_ok_grow s s' : buffer_ok s -> grow s = inr s' -> buffer_ok s'.
Proof.
  unfold grow, buffer_ok, buf_end. intros H.
  destruct (start s + len (window s) =? buf_len s) eqn:Hfull.
  - destruct ((maxTokenSize s <=? buf_len s) || (maxInt / 2 <? buf_len s)) eqn:Hmax;
      [discriminate|].
    intros [= <-]. cbn.
    apply orb_false_elim in Hmax as [H1 _]. apply Z.leb_gt in H1.
    apply Z.eqb_eq in Hfull.
    replace (buf_len s * 2 =? 0) with false by (symmetry; apply Z.eqb_neq; lia).
    pose proof (len_nonneg (window s)). lia.
  - intros [= <-]. assumption.
Qed.

Lemma buffer_ok_grow_failed s s' : buffer_ok s -> grow s = inl s' -> buffer_ok s'.
Proof.
  unfold grow. intros H.
  destruct (buf_end s =? buf_len s); [|discriminate].
  destruct ((maxTokenSize s <=? buf_len s) || (maxInt / 2 <? buf_len s)); [|discriminate].
  intros [= <-]. apply buffer_ok_setErr. assumption.
Qed.

Lemma Read_length rd space :
  0 <= space -> len (fst (fst (Read rd space))) <= space.
Proof.
  intros Hs. unfold Read. destruct (pending rd); cbn [fst]; [rewrite len_nil; lia|].
  rewrite len_slice_to. lia.
Qed.

Lemma buffer_ok_read s : buffer_ok s -> buffer_ok (read_more s).
Proof.
  intros H. unfold read_more.
  pose proof (Read_length (r s) (buf_len s - buf_end s)) as Hlen.
  destruct (Read (r s) (buf_len s - buf_end s)) as [[data e] rd]. cbn [fst] in Hlen.
  assert (Hok : buffer_ok (with_window (with_reader s rd) (start s) (window s ++ data))).
  { unfold buffer_ok, buf_end in *. cbn. rewrite len_app. lia. }
  destruct e; [apply buffer_ok_setErr; assumption|].
  destruct (0 <? len data); [assumption|apply buffer_ok_setErr; assumption].
Qed.

Lemma buffer_ok_fill s : buffer_ok s -> buffer_ok (after_pass (fill s)).
Proof.
  intros H. unfold fill. apply buffer_ok_shift in H.
  destruct (grow (shift_data s)) as [failed|s1] eqn:E; cbn [after_pass].
  - eapply buffer_ok_grow_failed; eauto.
  - apply buffer_ok_read. eapply buffer_ok_grow; eauto.
Qed.

(** Whatever a pass does, the live bytes stay within the buffer and the
    buffer within the limit. *)
Lemma buffer_ok_pass s : buffer_ok s -> buffer_ok (after_pass (scan_pass s)).
Proof.
  intros H. unfold scan_pass.
  assert (Hdrop : forall s1, buffer_ok s1 ->
            buffer_ok (after_pass (if negb (is_nil (err s1))
                                   then Return false (with_window s1 0 [])
                                   else fill s1))).
  { intros s1 H1. destruct (negb (is_nil (err s1))); [|apply buffer_ok_fill; assumption].
    cbn. unfold buffer_ok in *. cbn. lia. }
  destruct ((start s <? buf_end s) || negb (is_nil (err s))); [|apply Hdrop; assumption].
  destruct (scanLinesCR (window s) (negb (is_nil (err s)))) as [[advance tok] e].
  destruct e; [cbn; apply buffer_ok_setErr; assumption|].
  destruct (advance <? 0) eqn:Hneg; [cbn; apply buffer_ok_setErr; assumption|].
  destruct (buf_end s - start s <? advance) eqn:Hfar;
    [cbn; apply buffer_ok_setErr; assumption|].
  apply Z.ltb_ge in Hneg, Hfar.
  assert (Hadv : buffer_ok (with_token
                    (with_window s (start s + advance) (slice_from advance (window s))) tok)).
  { unfold buffer_ok, buf_end in *. cbn. rewrite len_slice_from. lia. }
  destruct tok; [exact Hadv|]. apply Hdrop. exact Hadv.
Qed.

Lemma comes_to_buffer_ok s s' : comes_to s s' -> buffer_ok s -> buffer_ok s'.
Proof.
  induction 1 as [s|s s1 _ IH]; intros H; [assumption|].
  apply buffer_ok_pass. auto.
Qed.

Lemma limit_setErr s e : maxTokenSize (setErr s e) = maxTokenSize s.
Proof. apply setErr_sizes. Qed.

Lemma limit_fill s : maxTokenSize (after_pass (fill s)) = maxTokenSize s.
Proof.
  unfold fill.
  assert (Hshift : maxTokenSize (shift_data s) = maxTokenSize s).
  { unfold shift_data.
    destruct ((0 <? start s) && ((buf_end s =? buf_len s) || (buf_len s / 2 <? start s)));
      reflexivity. }
  rewrite <- Hshift. generalize (shift_data s) as s0. clear. intros s.
  unfold grow.
  destruct (buf_end s =? buf_len s);
    [destruct ((maxTokenSize s <=? buf_len s) || (maxInt / 2 <? buf_len s))|];
    cbn [after_pass]; try apply limit_setErr;
    unfold read_more;
    match goal with |- context [Read ?a ?b] => destruct (Read a b) as [[data e] rd] end;
    (destruct e; [rewrite limit_setErr; reflexivity|]);
    (destruct (0 <? len data); [reflexivity|rewrite limit_setErr; reflexivity]).
Qed.

Lemma limit_pass s : maxTokenSize (after_pass (scan_pass s)) = maxTokenSize s.
Proof.
  unfold scan_pass.
  assert (Hdrop : forall s1,
            maxTokenSize (after_pass (if negb (is_nil (err s1))
                                      then Return false (with_window s1 0 [])
                                      else fill s1)) = maxTokenSize s1).
  { intros s1. destruct (negb (is_nil (err s1))); [reflexivity|apply limit_fill]. }
  destruct ((start s <? buf_end s) || negb (is_nil (err s))); [|apply Hdrop].
  destruct (scanLinesCR (window s) (negb (is_nil (err s)))) as [[advance tok] e].
  destruct e; [cbn; apply limit_setErr|].
  destruct (advance <? 0); [cbn; apply limit_setErr|].
  destruct (buf_end s - start s <? advance); [cbn; apply limit_setErr|].
  destruct tok; [reflexivity|]. rewrite Hdrop. reflexivity.
Qed.

Lemma comes_to_limit s s' : comes_to s s' -> maxTokenSize s' = maxTokenSize s.
Proof.
  induction 1 as [s|s s1 _ IH]; [reflexivity|]. rewrite limit_pass. exact IH.
Qed.

End BufferFacts.

Module OpIdFacts.
Import OpId Samples.

Lemma fmt_d_inj a b : fmt_d a = fmt_d b -> a = b.
Proof.
  unfold fmt_d. intros H.
  apply (f_equal NilEmpty.int_of_string) in H. rewrite !NilEmpty.isi in H.
  injection H as H. apply DecimalZ.to_int_inj. exact H.
Qed.

Lemma append_inv_head (a b c : string) : (a ++ b)%string = (a ++ c)%string -> b = c.
Proof.
  induction a as [|ch a IH]; cbn; intros H; [exact H|].
  injection H as H. auto.
Qed.

Lemma pid_calls n : forall p, pid (snd (calls n p)) = pid p.
Proof.
  induction n as [|n IH]; intros p; cbn; [reflexivity|].
  destruct (calls n _) as [ids p2] eqn:E. cbn.
  specialize (IH {| pid := pid p; operationCounter := AddUint64 (operationCounter p) 1 |}).
  rewrite E in IH. exact IH.
Qed.

(** After [k] calls the counter is the start value plus [k], modulo
    [2 ^ 64]. *)
Lemma counter_calls n : forall p,
  operationCounter (snd (calls n p)) mod uint64_modulus
  = (operationCounter p + Z.of_nat n) mod uint64_modulus.
Proof.
  induction n as [|n IH]; intros p.
  - cbn. f_equal. lia.
  - cbn [calls]. unfold GenerateOperationID at 1.
    destruct (calls n _) as [ids p2] eqn:E. cbn [snd].
    specialize (IH {| pid := pid p; operationCounter := AddUint64 (operationCounter p) 1 |}).
    rewrite E in IH. cbn [snd operationCounter] in IH. rewrite IH.
    unfold AddUint64. rewrite Zplus_mod_idemp_l. f_equal. lia.
Qed.

Lemma call_id_value p k :
  call_id p k =
    ("op-" ++ fmt_d (pid p) ++ "-" ++
     fmt_d ((operationCounter p + Z.of_nat k + 1) mod uint64_modulus))%string.
Proof.
  unfold call_id, GenerateOperationID. cbn [fst]. rewrite pid_calls.
  unfold AddUint64. rewrite <- Zplus_mod_idemp_l, counter_calls, Zplus_mod_idemp_l.
  reflexivity.
Qed.

Lemma calls_succ k p :
  snd (calls (S k) p) = snd (calls k (snd (GenerateOperationID p))).
Proof. cbn. destruct (calls k _). reflexivity. Qed.

Lemma calls_are_call_ids n : forall p k,
  nth_error (fst (calls n p)) k = if (k <? n)%nat then Some (call_id p k) else None.
Proof.
  induction n as [|n IH]; intros p k.
  - cbn. destruct k; reflexivity.
  - cbn [calls]. unfold GenerateOperationID at 1.
    destruct (calls n _) as [ids p2] eqn:E. cbn [fst].
    destruct k as [|k]; [reflexivity|]. cbn [nth_error].
    specialize (IH {| pid := pid p; operationCounter := AddUint64 (operationCounter p) 1 |} k).
    rewrite E in IH. cbn [fst] in IH. rewrite IH.
    change (S k <? S n)%nat with (k <? n)%nat.
    destruct (k <? n)%nat; [|reflexivity]. f_equal.
    unfold call_id. rewrite calls_succ. reflexivity.
Qed.

Lemma call_ids_differ p i j :
  i <> j -> Z.abs (Z.of_nat i - Z.of_nat j) < uint64_modulus ->
  call_id p i <> call_id p j.
Proof.
  intros Hij Hclose E. rewrite !call_id_value in E.
  apply append_inv_head, append_inv_head, append_inv_head, fmt_d_inj in E.
  assert (Hm : 0 < uint64_modulus) by reflexivity.
  set (a := operationCounter p + Z.of_nat i + 1) in *.
  set (b := operationCounter p + Z.of_nat j + 1) in *.
  assert (Hd : (a - b) mod uint64_modulus = 0).
  { rewrite Zminus_mod, E, Z.sub_diag. reflexivity. }
  apply Z.mod_divide in Hd; [|lia]. destruct Hd as [q Hq].
  assert (a - b = Z.of_nat i - Z.of_nat j) by (subst a b; lia).
  assert (q = 0) by nia. lia.
Qed.

Lemma length_calls n : forall p, List.length (fst (calls n p)) = n.
Proof.
  induction n as [|n IH]; intros p; cbn [calls]; [reflexivity|].
  unfold GenerateOperationID at 1.
  specialize (IH {| pid := pid p; operationCounter := AddUint64 (operationCounter p) 1 |}).
  destruct (calls n _) as [ids p2]. cbn in *. congruence.
Qed.

(** C5 (amended).  Any number of calls up to [2 ^ 64], in whatever order
    concurrent callers reach the atomic increment, return pairwise distinct
    identifiers: the counter values taken are distinct modulo [2 ^ 64] and
    the decimal rendering of the counter after the fixed prefix is
    injective. *)
Theorem C5_identifiers_are_distinct_until_the_counter_wraps :
  forall (p : Proc) (n : nat),
    Z.of_nat n <= uint64_modulus -> NoDup (fst (calls n p)).
Proof.
  intros p n Hn. apply NoDup_nth_error. intros i j Hi E.
  rewrite length_calls in Hi. rewrite !calls_are_call_ids in E.
  apply Nat.ltb_lt in Hi as Hi'. rewrite Hi' in E.
  destruct (j <? n)%nat eqn:Hj; [|discriminate]. apply Nat.ltb_lt in Hj.
  assert (E' : call_id p i = call_id p j)
    by exact (f_equal (fun o => match o with Some x => x | None => EmptyString end) E).
  destruct (Nat.eq_dec i j) as [|Hne]; [assumption|].
  exfalso. apply (call_ids_differ p i j Hne); [lia|exact E'].
Qed.

Lemma C5_a_thousand_identifiers :
  Z.of_nat 1000 <= uint64_modulus /\ NoDup (fst (calls 1000 a_process)).
Proof.
  assert (H : Z.of_nat 1000 <= uint64_modulus) by (unfold uint64_modulus; lia).
  split; [exact H|].
  exact (C5_identifiers_are_distinct_until_the_counter_wraps a_process 1000 H).
Defined.

(** C5 as stated fails: the counter is a [uint64], so call number
    [2 ^ 64 + 1] of a process returns the identifier of its first call. *)
Lemma C5_identifiers_repeat_after_the_counter_wraps :
  call_id a_process (Z.to_nat uint64_modulus) = call_id a_process 0 /\
  call_id a_process 0 = "op-4242-1"%string.
Proof.
  split; [|reflexivity].
  rewrite (call_id_value a_process (Z.to_nat uint64_modulus)), (call_id_value a_process 0).
  rewrite Z2Nat.id by (unfold uint64_modulus; lia).
  reflexivity.
Qed.

End OpIdFacts.

Module OrderingClaims.
Import Splitter Emit Runner ChunkSpec RunSpec Samples.
Import SplitterFacts ScannerFacts FillFacts ScanFacts ReaderFacts RunFacts ExecutionFacts
       OperationFacts.

(** C2.  For every operation that was started, in pipe mode and in pty
    mode, the signals it emits are Output signals followed by one Complete
    signal: in every state of every execution of the pipe-mode goroutines
    the emitted signals are lines of the two streams, followed by the
    Complete signal exactly when the finalizer has finished, and then every
    line of both streams stands before it; as long as the finalizer has not
    finished some goroutine can step, every step uses up the bounded supply
    of steps, and nothing steps after the finalizer has finished.  The
    pty-mode goroutine returns, having emitted the lines of the terminal and
    then the one Complete signal. *)
Theorem C2_one_complete_after_all_output :
  forall (p : OpId.Proc) (stdout stderr ptyFile : Reader)
         (exit : Exec.WaitOutcome) (w0 : World),
  (exists id p' t0,
     RunCommandStreaming p (Started stdout stderr exit) = ((id, None), p', Some t0) /\
     forall t w, steps (t0, w0) (t, w) ->
       (exists outs,
          emissions w =
            emissions w0 ++ map (signal_of id) outs ++
            match finalizer t with
            | Finished => [completion_signal id exit]
            | _ => []
            end /\
          (finalizer t = Finished ->
           from_stream false outs = stream_lines stdout /\
           from_stream true outs = stream_lines stderr)) /\
       (finalizer t <> Finished -> exists c', step (t, w) c') /\
       (forall c', step (t, w) c' ->
          finalizer t <> Finished /\ (steps_left (fst c') < steps_left t)%nat)) /\
  (exists id p' task w',
     RunCommandStreamingPTY p (PtyStarted ptyFile exit) = ((id, None), p', Some task) /\
     task w0 = Some w' /\
     emissions w' =
       emissions w0 ++ map (fun line => Output id line false) (stream_lines ptyFile)
       ++ [completion_signal id exit]).
Proof.
  intros p stdout stderr ptyFile exit w0. split.
  - eexists _, _, _. split; [reflexivity|].
    intros t w Hsteps.
    destruct (run_summary p stdout stderr exit w0 _ _ _ t w eq_refl Hsteps)
      as (tr & Hw & Hinv).
    split; [|split].
    + destruct Hinv as (_ & _ & _ & _ & _ & Hfin & outs & Ho & He & Htr).
      exists outs. split; [rewrite Hw, Htr; reflexivity|].
      intros Hf. destruct Hfin as [H1 H2]; [congruence|].
      rewrite H1, H2 in *. cbn in Ho, He. rewrite app_nil_r in *. auto.
    + intros Hnf. eapply progress; eauto.
    + intros c' Hstep. split.
      * intros Hf. eapply finished_is_final; eauto.
      * eapply step_decreases; eauto.
  - eexists _, _, _, _. split; [reflexivity|]. cbn beta.
    unfold pty_task. rewrite streamReader_spec. split; [reflexivity|].
    rewrite emissions_finalize, emissions_emit_lines, <- app_assoc. reflexivity.
Qed.

(** C4.  A pipe-mode command that writes the lines a, b and c to standard
    output and nothing to standard error, and exits successfully, runs to
    its end, and at its end it has emitted exactly three Output signals with
    isStderr false and these payloads in this order, followed by one
    Complete signal with exit code 0 and an empty message, whatever the
    interleaving and however the pipe hands over the bytes.  In general the
    lines emitted for one stream are, in order, a prefix of that stream's
    lines.  Between the streams no order is kept: the same operation has an
    execution that emits a line of standard output first and one that emits
    a line of standard error first. *)
Theorem C4_order_within_a_stream :
  (forall (p : OpId.Proc) (sched_out sched_err : list nat) (w0 : World),
   exists id p' t0,
     RunCommandStreaming p (Started (mkReader abc_stream sched_out)
                                    (mkReader [] sched_err) (Exec.Reaped 0))
       = ((id, None), p', Some t0) /\
     (exists t w, steps (t0, w0) (t, w) /\ finalizer t = Finished) /\
     (forall t w, steps (t0, w0) (t, w) -> finalizer t = Finished ->
        emissions w =
          emissions w0 ++
          [Output id (bytes "a" ++ [LF]) false;
           Output id (bytes "b" ++ [LF]) false;
           Output id (bytes "c" ++ [LF]) false;
           Complete id 0 EmptyString])) /\
  (forall (p : OpId.Proc) (stdout stderr : Reader) (exit : Exec.WaitOutcome)
          (w0 : World) id p' t0 t w,
     RunCommandStreaming p (Started stdout stderr exit) = ((id, None), p', Some t0) ->
     steps (t0, w0) (t, w) ->
     exists outs fin later_out later_err,
       emissions w = emissions w0 ++ map (signal_of id) outs ++ fin /\
       (fin = [] \/ fin = [completion_signal id exit]) /\
       from_stream false outs ++ later_out = stream_lines stdout /\
       from_stream true outs ++ later_err = stream_lines stderr) /\
  (exists id p' t0 t1 w1 t2 w2,
     RunCommandStreaming a_process
       (Started (mkReader (bytes "x" ++ [LF]) []) (mkReader (bytes "y" ++ [LF]) [])
                (Exec.Reaped 0))
       = ((id, None), p', Some t0) /\
     steps (t0, quiet_world) (t1, w1) /\
     steps (t0, quiet_world) (t2, w2) /\
     emissions w1 = [Output id (bytes "x" ++ [LF]) false;
                     Output id (bytes "y" ++ [LF]) true] /\
     emissions w2 = [Output id (bytes "y" ++ [LF]) true;
                     Output id (bytes "x" ++ [LF]) false]).
Proof.
  split; [|split].
  - intros p sched_out sched_err w0.
    eexists _, _, _. split; [reflexivity|]. split.
    + destruct (can_finish _ _ _ _ (emissions w0) _ _ [] w0 (Nat.lt_succ_diag_r _)
                  (start_inv (fst (OpId.GenerateOperationID p))
                             (mkReader abc_stream sched_out) (mkReader [] sched_err)
                             (Exec.Reaped 0))
                  (eq_sym (app_nil_r _)))
        as ([t w] & Hs & Hf).
      exists t, w. split; assumption.
    + intros t w Hsteps Hf.
      destruct (run_summary p _ _ _ w0 _ _ _ t w eq_refl Hsteps) as (tr & Hw & Hinv).
      destruct Hinv as (_ & _ & _ & _ & _ & Hfin & outs & Ho & He & Htr).
      destruct Hfin as [H1 H2]; [congruence|].
      rewrite H1, H2, Hf in *. cbn [task_lines] in Ho, He. rewrite app_nil_r in *.
      rewrite Hw, Htr. f_equal.
      rewrite <- (single_stream outs He), Ho. reflexivity.
  - intros p stdout stderr exit w0 id p' t0 t w Hrun Hsteps.
    destruct (run_summary p _ _ _ w0 _ _ _ t w Hrun Hsteps) as (tr & Hw & Hinv).
    destruct Hinv as (_ & _ & _ & _ & _ & _ & outs & Ho & He & Htr).
    exists outs, (match finalizer t with
                  | Finished => [completion_signal id exit]
                  | _ => []
                  end), (task_lines (stdoutTask t)), (task_lines (stderrTask t)).
    split; [rewrite Hw, Htr; reflexivity|].
    split; [destruct (finalizer t); auto|]. split; assumption.
  - eexists _, _, _, _, _, _, _. split; [reflexivity|].
    split; [|split; [|split]].
    + eapply steps_more; [eapply steps_more; [apply steps_refl|]|].
      * eapply (step_chunk _ _ false); [reflexivity|vm_compute; reflexivity].
      * eapply (step_chunk _ _ true); [reflexivity|vm_compute; reflexivity].
    + eapply steps_more; [eapply steps_more; [apply steps_refl|]|].
      * eapply (step_chunk _ _ true); [reflexivity|vm_compute; reflexivity].
      * eapply (step_chunk _ _ false); [reflexivity|vm_compute; reflexivity].
    + vm_compute. reflexivity.
    + vm_compute. reflexivity.
Qed.

End OrderingClaims.

Module SplitterClaims.
Import Splitter Emit Runner ChunkSpec RunSpec Samples.
Import SplitterFacts ScannerFacts FillFacts ScanFacts ReaderFacts ChunkFacts BufferFacts.

Lemma comes_to_trans s1 s2 s3 : comes_to s1 s2 -> comes_to s2 s3 -> comes_to s1 s3.
Proof.
  intros H12 H23. induction H23 as [s|s s' _ IH]; [assumption|].
  apply comes_to_next. auto.
Qed.

(** The scanner a call of [Scan] returns is one the passes lead to. *)
Lemma Scan_loop_comes_to : forall n s b s',
  Scan_loop n s = Some (b, s') -> comes_to s s'.
Proof.
  induction n as [|n IH]; intros s b s' H; cbn in H; [discriminate|].
  pose proof (comes_to_next s s (comes_to_itself s)) as Hnext.
  destruct (scan_pass s) as [found s1|s1]; cbn [after_pass] in Hnext.
  - injection H as <- <-. exact Hnext.
  - eapply comes_to_trans; [exact Hnext|]. eapply IH; eauto.
Qed.

(** C3 (amended).  For every byte stream whose segments are all shorter
    than the scanner's limit of 1024 * 1024 bytes, however the reader hands
    the bytes over, [streamReader] emits exactly the chunks of the stream:
    it is split at every newline and at every carriage return, the boundary
    byte is dropped, every segment gets exactly one newline appended, and
    bytes left after the last boundary are emitted as a last chunk. *)
Theorem C3_stream_is_split_into_chunks :
  forall (input : list byte) (sched : list nat) (w : World) (id : string)
         (isStderr : bool),
    short_segments max_buffer input ->
    emits w id (mkReader input sched) isStderr (chunks input).
Proof.
  intros input sched w id isStderr Hshort.
  pose proof (emits_stream_lines w id (mkReader input sched) isStderr) as H.
  rewrite stream_lines_of, (within_all _ _ Hshort) in H. exact H.
Qed.

Lemma C3_progress_display_chunks :
  short_segments max_buffer progress_stream /\
  emits quiet_world "op-4242-1" (mkReader progress_stream [0; 3; 1]%nat) false
        [bytes "progress: 1%" ++ [LF]; bytes "progress: 2%" ++ [LF]; bytes "done" ++ [LF]].
Proof.
  assert (H : short_segments max_buffer progress_stream)
    by (unfold short_segments; repeat constructor).
  split; [exact H|].
  exact (C3_stream_is_split_into_chunks progress_stream [0; 3; 1]%nat quiet_world
           "op-4242-1" false H).
Defined.

(** C3 as stated fails: 1024 * 1024 bytes without a boundary byte are a
    residue at the end of the stream, and no chunk is emitted for them. *)
Lemma C3_long_residue_is_not_flushed :
  chunks long_line = [long_line ++ [LF]] /\
  emits quiet_world "op-4242-1" (mkReader long_line []) false [] /\
  ~ emits quiet_world "op-4242-1" (mkReader long_line []) false (chunks long_line).
Proof.
  assert (Hc : chunks long_line = [long_line ++ [LF]]).
  { unfold chunks.
    rewrite (segments_unbroken long_line long_line_unbroken long_line_not_empty).
    reflexivity. }
  assert (He : emits quiet_world "op-4242-1" (mkReader long_line []) false []).
  { pose proof (long_line_emits_nothing quiet_world "op-4242-1" [] [] false) as H.
    rewrite app_nil_r in H. exact H. }
  split; [exact Hc|]. split; [exact He|].
  intros H. pose proof (emits_unique _ _ _ _ _ _ He H) as E.
  rewrite Hc in E. discriminate.
Qed.

(** C9 (amended).  The buffer of the scanner starts at 64 * 1024 bytes and
    is allowed to grow to 1024 * 1024 bytes and no further: in every state
    the scanner comes to, the live bytes lie within the buffer and the
    buffer within that limit.  [streamReader] emits a chunk for every
    segment in front of the first segment of 1024 * 1024 bytes or more, and
    nothing from that segment on; so a stream whose segments are all shorter
    than 1024 * 1024 bytes has every segment emitted. *)
Theorem C9_buffer_grows_to_one_megabyte_and_no_further :
  forall (input : list byte) (sched : list nat) (w : World) (id : string)
         (isStderr : bool),
    initial_buffer = 65536 /\ max_buffer = 1048576 /\
    (forall s, comes_to (NewScanner (mkReader input sched) initial_buffer max_buffer) s ->
               len (window s) <= buf_len s <= max_buffer) /\
    emits w id (mkReader input sched) isStderr
          (map chunk_of (within max_buffer (segments input))) /\
    (short_segments max_buffer input ->
     emits w id (mkReader input sched) isStderr (chunks input)).
Proof.
  intros input sched w id isStderr.
  split; [reflexivity|]. split; [reflexivity|]. split; [|split].
  - intros s Hs.
    assert (H0 : buffer_ok (NewScanner (mkReader input sched) initial_buffer max_buffer))
      by (unfold buffer_ok, NewScanner, initial_buffer, max_buffer; cbn; lia).
    pose proof (comes_to_buffer_ok _ _ Hs H0) as (H1 & H2 & H3).
    rewrite (comes_to_limit _ _ Hs) in H3. cbn [maxTokenSize NewScanner] in H3. lia.
  - pose proof (emits_stream_lines w id (mkReader input sched) isStderr) as H.
    rewrite stream_lines_of in H. exact H.
  - intros Hshort.
    pose proof (emits_stream_lines w id (mkReader input sched) isStderr) as H.
    rewrite stream_lines_of, (within_all _ _ Hshort) in H. exact H.
Qed.

(** C9 as stated fails: a line of exactly 1024 * 1024 bytes, ended by a
    newline, is a segment of at most one megabyte, and it is not emitted. *)
Lemma C9_line_of_one_megabyte_is_lost :
  len long_line = 1024 * 1024 /\
  segments (long_line ++ [LF]) = [long_line] /\
  emits quiet_world "op-4242-1" (mkReader (long_line ++ [LF]) []) false [].
Proof.
  split; [exact len_long_line|]. split.
  - rewrite (segments_break long_line LF [] long_line_unbroken eq_refl). reflexivity.
  - apply long_line_emits_nothing.
Qed.

(** C10 (amended).  In a stream that holds a carriage return followed by a
    newline, where the segment in front of the carriage return and the
    segments before it are shorter than 1024 * 1024 bytes, both bytes are
    boundaries: after the chunks of what comes earlier, the segment in front
    of the carriage return is emitted as one chunk, and a chunk that is a
    newline alone is emitted for the empty segment between the two bytes. *)
Theorem C10_crlf_yields_an_empty_chunk :
  forall (earlier seg later : list byte) (sched : list nat) (w : World)
         (id : string) (isStderr : bool),
    ends_at_break earlier -> unbroken seg ->
    short_segments max_buffer earlier -> len seg < max_buffer ->
    emits w id (mkReader (earlier ++ seg ++ CR :: LF :: later) sched) isStderr
          (chunks earlier ++ [seg ++ [LF]; [LF]] ++
           map chunk_of (within max_buffer (segments later))).
Proof.
  intros earlier seg later sched w id isStderr Hclosed Hseg Hshort Hlen.
  pose proof (emits_stream_lines w id
                (mkReader (earlier ++ seg ++ CR :: LF :: later) sched) isStderr) as H.
  rewrite stream_lines_of in H.
  rewrite (segments_closed earlier _ Hclosed) in H.
  rewrite (segments_break seg CR (LF :: later) Hseg eq_refl) in H.
  change (segments (LF :: later)) with ([] :: segments later) in H.
  rewrite (within_app _ _ _ Hshort) in H.
  cbn [within] in H.
  replace (len seg <? max_buffer) with true in H
    by (symmetry; apply Z.ltb_lt; exact Hlen).
  replace (len (@nil byte) <? max_buffer) with true in H by reflexivity.
  rewrite map_app in H. exact H.
Qed.

Lemma C10_windows_line_ending :
  (ends_at_break [] /\ unbroken (bytes "a") /\
   short_segments max_buffer [] /\ len (bytes "a") < max_buffer) /\
  emits quiet_world "op-4242-1" (mkReader crlf_stream [0]%nat) false
        [bytes "a" ++ [LF]; [LF]].
Proof.
  assert (H1 : ends_at_break []) by (left; reflexivity).
  assert (H2 : unbroken (bytes "a")) by (repeat constructor).
  assert (H3 : short_segments max_buffer []) by constructor.
  assert (H4 : len (bytes "a") < max_buffer) by reflexivity.
  split; [exact (conj H1 (conj H2 (conj H3 H4)))|].
  exact (C10_crlf_yields_an_empty_chunk [] (bytes "a") [] [0]%nat quiet_world
           "op-4242-1" false H1 H2 H3 H4).
Defined.

(** C10 as stated fails: behind a line of 1024 * 1024 bytes the carriage
    return and the newline yield no chunk at all. *)
Lemma C10_crlf_behind_a_long_line_is_lost :
  chunks (long_line ++ [CR; LF]) = [long_line ++ [LF]; [LF]] /\
  emits quiet_world "op-4242-1" (mkReader (long_line ++ [CR; LF]) []) false [].
Proof.
  split; [|apply long_line_emits_nothing].
  unfold chunks.
  rewrite (segments_break long_line CR [LF] long_line_unbroken eq_refl).
  reflexivity.
Qed.

End SplitterClaims.

Module CompletionClaims.
Import Splitter Emit Runner ChunkSpec RunSpec Samples.
Import RunFacts.

Lemma ExitStatus_range st :
  Exec.Exited st = true -> 0 <= Exec.ExitStatus st <= 255.
Proof.
  intros H. unfold Exec.ExitStatus. rewrite H. cbn [negb].
  assert (E : Z.land (Z.shiftr st Exec.shift) 255 = Z.shiftr st Exec.shift mod 2 ^ 8)
    by (change 255 with (Z.ones 8); apply Z.land_ones; lia).
  rewrite E.
  pose proof (Z.mod_pos_bound (Z.shiftr st Exec.shift) (2 ^ 8) ltac:(lia)). lia.
Qed.

Lemma ExitStatus_signaled st : Exec.Exited st = false -> Exec.ExitStatus st = -1.
Proof. intros H. unfold Exec.ExitStatus. rewrite H. reflexivity. Qed.

Lemma signalled_is_no_success st : Exec.Exited st = false -> Exec.Success st = false.
Proof. intros H. unfold Exec.Success. rewrite (ExitStatus_signaled st H). reflexivity. Qed.

(** The completion record, by what [cmd.Wait] returned. *)
Lemma completion_cases exit :
  (Exec.Wait exit = None /\
   (exists st, exit = Exec.Reaped st /\ Exec.Exited st = true /\ Exec.ExitStatus st = 0) /\
   exit_code exit = 0 /\ error_message exit = EmptyString)
  \/ (exists st, Exec.Wait exit = Some (Exec.ExitError st) /\ Exec.Exited st = true /\
                 exit_code exit = Exec.ExitStatus st /\ 0 < exit_code exit <= 255 /\
                 error_message exit = EmptyString)
  \/ (exists st, Exec.Wait exit = Some (Exec.ExitError st) /\ Exec.Exited st = false /\
                 exit_code exit = -1 /\ error_message exit = EmptyString)
  \/ (exists msg, Exec.Wait exit = Some (Exec.OtherError msg) /\
                  exit_code exit = -1 /\ error_message exit = msg).
Proof.
  assert (Hst : forall st,
            (Exec.Exited st = true /\ Exec.ExitStatus st = 0 /\ Exec.Success st = true) \/
            (Exec.Exited st = true /\ 0 < Exec.ExitStatus st <= 255 /\
             Exec.Success st = false) \/
            (Exec.Exited st = false /\ Exec.ExitStatus st = -1 /\ Exec.Success st = false)).
  { intros st. destruct (Exec.Exited st) eqn:Hex.
    - pose proof (ExitStatus_range st Hex) as Hr. unfold Exec.Success.
      destruct (Exec.ExitStatus st =? 0) eqn:Hz.
      + apply Z.eqb_eq in Hz. left. auto.
      + apply Z.eqb_neq in Hz. right; left. repeat split; try reflexivity; lia.
    - right; right. split; [reflexivity|]. split; [apply ExitStatus_signaled; exact Hex|].
      apply signalled_is_no_success. exact Hex. }
  unfold exit_code, error_message.
  destruct exit as [st|st watchErr|msg]; cbn [Exec.Wait].
  - destruct (Hst st) as [(Hex & Hz & ->)|[(Hex & Hr & ->)|(Hex & Hs & ->)]];
      cbn [completion fst snd]; unfold Exec.ExitCode.
    + left. split; [reflexivity|]. split; [exists st; auto|]. split; reflexivity.
    + right; left. exists st. repeat split; try reflexivity; try assumption; lia.
    + right; right; left. exists st. rewrite Hs. repeat split; try reflexivity; assumption.
  - destruct (Hst st) as [(Hex & Hz & ->)|[(Hex & Hr & ->)|(Hex & Hs & ->)]];
      cbn [completion fst snd Exec.Error]; unfold Exec.ExitCode.
    + right; right; right. exists watchErr. repeat split; reflexivity.
    + right; left. exists st. repeat split; try reflexivity; try assumption; lia.
    + right; right; left. exists st. rewrite Hs. repeat split; try reflexivity; assumption.
  - right; right; right. exists msg. repeat split; reflexivity.
Qed.

(** What the exit code of a completion record says, for every way the
    wait can end.  The exit code 0 means that [cmd.Wait] returned [nil]: the
    process exited on its own with status 0.  A positive exit code is the
    exit status of a process that exited on its own, at most 255, with an
    empty message.  The exit code -1 comes with the text of the error when
    [cmd.Wait] returned an error that is no exit status, and with an empty
    message when the process was ended by a signal.  There is no other exit
    code.  A process that exited with status 0 is not always reported with
    exit code 0: when the context was done before the wait, the record
    carries -1 and the context's error. *)
Lemma completion_record_by_outcome :
  forall (exit : Exec.WaitOutcome) (w : World) (id : string),
    emissions (finalize w id exit) =
      emissions w ++ [Complete id (exit_code exit) (error_message exit)] /\
    (exit_code exit = 0 ->
     Exec.Wait exit = None /\ error_message exit = EmptyString /\
     exists st, exit = Exec.Reaped st /\ Exec.Exited st = true /\ Exec.ExitStatus st = 0) /\
    (0 < exit_code exit ->
     exists st, Exec.Wait exit = Some (Exec.ExitError st) /\ Exec.Exited st = true /\
                exit_code exit = Exec.ExitStatus st /\ exit_code exit <= 255 /\
                error_message exit = EmptyString) /\
    (exit_code exit = -1 ->
     (exists msg, Exec.Wait exit = Some (Exec.OtherError msg) /\ error_message exit = msg) \/
     (exists st, Exec.Wait exit = Some (Exec.ExitError st) /\ Exec.Exited st = false /\
                 error_message exit = EmptyString)) /\
    (exit_code exit = -1 \/ 0 <= exit_code exit <= 255).
Proof.
  intros exit w id. split; [apply emissions_finalize|].
  destruct (completion_cases exit)
    as [(Hw & Hst & Hc & Hm)|[(st & Hw & Hex & Hc & Hr & Hm)|
        [(st & Hw & Hex & Hc & Hm)|(msg & Hw & Hc & Hm)]]].
  - split; [|split; [|split]].
    + intros _. auto.
    + intros H. lia.
    + intros H. lia.
    + right. lia.
  - split; [|split; [|split]].
    + intros H. lia.
    + intros _. exists st. repeat split; auto. lia.
    + intros H. lia.
    + right. lia.
  - split; [|split; [|split]].
    + intros H. lia.
    + intros H. lia.
    + intros _. right. exists st. auto.
    + left. exact Hc.
  - split; [|split; [|split]].
    + intros H. lia.
    + intros H. lia.
    + intros _. left. exists msg. auto.
    + left. exact Hc.
Qed.

(** C1, at a process that is killed.  A command ended by signal 9 (what
    an expired context sends; the wait status is 9) makes [cmd.Wait] return
    an [*exec.ExitError] whose [ExitCode()] is -1, with or without an error
    of the context beside it, and the completion block leaves the message of
    every [*exec.ExitError] empty: the Complete signal carries -1 and an
    empty message, and so for every process ended by a signal.  The other
    branch of the same block pairs -1 with the text of the error, as for a
    failed wait or for a process that exited with status 0 after its context
    had expired. *)
Theorem C1_killed_process_is_reported_without_a_message :
  Exec.Wait (Exec.Reaped 9) = Some (Exec.ExitError 9) /\
  Exec.Wait (Exec.Interrupted 9 "context deadline exceeded") = Some (Exec.ExitError 9) /\
  Exec.ExitCode 9 = -1 /\
  completion (Exec.Wait (Exec.Reaped 9)) = (-1, EmptyString) /\
  completion (Exec.Wait (Exec.Interrupted 9 "context deadline exceeded"))
  = (-1, EmptyString) /\
  emissions (finalize quiet_world "op-4242-1" (Exec.Reaped 9))
  = [Complete "op-4242-1" (-1) EmptyString] /\
  completion (Exec.Wait (Exec.WaitFailed "wait: no child processes"))
  = (-1, "wait: no child processes"%string) /\
  completion (Exec.Wait (Exec.Interrupted 0 "context deadline exceeded"))
  = (-1, "context deadline exceeded"%string) /\
  (forall st, Exec.Exited st = false ->
     completion (Exec.Wait (Exec.Reaped st)) = (-1, EmptyString)).
Proof.
  repeat (split; [reflexivity|]).
  intros st Hex. cbn [Exec.Wait]. rewrite (signalled_is_no_success st Hex).
  cbn [completion]. unfold Exec.ExitCode. rewrite (ExitStatus_signaled st Hex).
  reflexivity.
Qed.

(** C6 (amended).  When the process cannot be started, no goroutine is
    left running, so nothing is ever emitted for the attempt, and the call
    returns an error.  [RunCommandStreaming] and [RunCommandStreamingPTY]
    return the empty string in place of an identifier;
    [RunCommandStreamingSync] returns the identifier it had generated,
    with exit code -1. *)
Theorem C6_failed_start_emits_nothing :
  forall (p : OpId.Proc) (sp : Spawn) (ptyError : string),
    spawn_failed sp ->
    (exists e, RunCommandStreaming p sp
               = ((EmptyString, Some e), snd (OpId.GenerateOperationID p), None)) /\
    (exists e, RunCommandStreamingPTY p (PtyStartFails ptyError)
               = ((EmptyString, Some e), snd (OpId.GenerateOperationID p), None)) /\
    (exists e, RunCommandStreamingSync p sp
               = (SyncFailed (fst (OpId.GenerateOperationID p)) (-1) e,
                  snd (OpId.GenerateOperationID p))).
Proof.
  intros p sp ptyError Hsp.
  split; [|split].
  - destruct sp; cbn in Hsp; try contradiction; eexists; reflexivity.
  - eexists. reflexivity.
  - destruct sp; cbn in Hsp; try contradiction; eexists; reflexivity.
Qed.

Lemma C6_missing_executable :
  spawn_failed (StartFails "exec: no such file") /\
  ((exists e, RunCommandStreaming a_process (StartFails "exec: no such file")
              = ((EmptyString, Some e), snd (OpId.GenerateOperationID a_process), None)) /\
   (exists e, RunCommandStreamingPTY a_process (PtyStartFails "fork/exec: no such file")
              = ((EmptyString, Some e), snd (OpId.GenerateOperationID a_process), None)) /\
   (exists e, RunCommandStreamingSync a_process (StartFails "exec: no such file")
              = (SyncFailed (fst (OpId.GenerateOperationID a_process)) (-1) e,
                 snd (OpId.GenerateOperationID a_process)))).
Proof.
  split; [exact I|].
  exact (C6_failed_start_emits_nothing a_process (StartFails "exec: no such file")
           "fork/exec: no such file" I).
Defined.

(** C6 as stated fails: when the start fails, [RunCommandStreamingSync]
    hands the identifier it generated to its caller. *)
Lemma C6_sync_returns_the_identifier :
  fst (RunCommandStreamingSync a_process (StartFails "exec: no such file"))
  = SyncFailed "op-4242-1" (-1) "failed to start command: exec: no such file".
Proof. reflexivity. Qed.

(** C8, at a connection whose next emission fails.  The reader writes the
    failure of [EmitOutput] to standard error and goes on; the finalization
    makes its [EmitComplete] call, the call fails, and nothing is written
    to the log. *)
Lemma C8_failed_complete_leaves_no_trace_in_the_log :
  log (emit_line closed_world "op-4242-1" (bytes "a" ++ [LF]) false)
  = [LogChunk "op-4242-1" (bytes "a" ++ [LF]);
     LogEmitOutputFailed "dbus: connection closed by user"] /\
  emit_calls (finalize closed_world "op-4242-1" (Exec.Reaped 0))
  = [(Complete "op-4242-1" 0 EmptyString, Some "dbus: connection closed by user"%string)] /\
  log (finalize closed_world "op-4242-1" (Exec.Reaped 0)) = [].
Proof. repeat split; reflexivity. Qed.

End CompletionClaims.

Module ReceiverClaims.
Import Recv Samples.

Lemma Stop_stopped rc : stopped (Stop rc) = true.
Proof. unfold Stop. destruct (stopped rc) eqn:E; cbn; auto. Qed.

Lemma Stop_again rc : stopped rc = true -> Stop rc = rc.
Proof. intros H. unfold Stop. rewrite H. reflexivity. Qed.

Lemma Stop_well_formed rc : well_formed rc -> well_formed (Stop rc).
Proof.
  unfold well_formed, Stop. intros [H1 H2].
  destruct (stopped rc) eqn:E; cbn; rewrite ?E; auto.
Qed.

Lemma Stop_closes rc : well_formed rc -> stopChanClosed (Stop rc) = true.
Proof.
  intros H. destruct (Stop_well_formed rc H) as [-> _]. apply Stop_stopped.
Qed.

Lemma Stop_keeps_signals rc :
  signalChan (Stop rc) = signalChan rc /\
  signalChanClosed (Stop rc) = signalChanClosed rc.
Proof. unfold Stop. destruct (stopped rc); cbn; auto. Qed.

(** With [stopChan] closed the loop ends on every queue: with the stopped
    sentinel, with the result of a Complete signal that was buffered, or
    with the report that the signal channel was closed. *)
Lemma wait_loop_stopped id : forall queue chanClosed picks,
  let res := fst (fst (wait_loop queue chanClosed true id picks)) in
  res = Returned (-1) "receiver stopped"
  \/ (exists sig code msg, In sig queue /\ on_signal id sig = inr (code, msg) /\
                           res = Returned code msg)
  \/ (chanClosed = true /\ res = Returned (-1) "signal channel closed").
Proof.
  induction queue as [|sig rest IH]; intros chanClosed picks; cbn.
  - destruct chanClosed; [|left; reflexivity].
    destruct (hd false picks); cbn; [right; right; auto|left; reflexivity].
  - destruct (hd false picks); cbn; [|left; reflexivity].
    destruct (on_signal id sig) as [chunk|[code msg]] eqn:E.
    + specialize (IH chanClosed (tl picks)). cbn in IH.
      destruct (wait_loop rest chanClosed true id (tl picks)) as [[res chunks] remaining].
      cbn in *. destruct IH as [H|[(s & c & m & Hin & Hs & Hr)|H]].
      * left; assumption.
      * right; left. exists s, c, m. auto.
      * right; right; assumption.
    + cbn. right; left. exists sig, code, msg. auto.
Qed.

(** C7 (amended).  The first call of [Stop] marks the receiver stopped,
    closes [stopChan] and removes the subscription; every later call leaves
    the receiver as it is.  After [Stop], [WaitForOperation] does not block:
    it returns the stopped sentinel or, when signals were still buffered and
    the [select] picked them, the result of a buffered Complete signal of
    the operation (or the report that the signal channel was closed); with
    nothing buffered it returns the stopped sentinel. *)
Theorem C7_stop_once_and_wait_returns :
  forall (rc : Receiver) (id : string) (picks : list bool),
    well_formed rc ->
    (Stop (Stop rc) = Stop rc /\ stopped (Stop rc) = true /\
     stopChanClosed (Stop rc) = true /\ subscribed (Stop rc) = false) /\
    wait_result (Stop rc) id picks <> Blocked /\
    (wait_result (Stop rc) id picks = Returned (-1) "receiver stopped"
     \/ (exists sig code msg,
           In sig (signalChan rc) /\ on_signal id sig = inr (code, msg) /\
           wait_result (Stop rc) id picks = Returned code msg)
     \/ (signalChanClosed rc = true /\
         wait_result (Stop rc) id picks = Returned (-1) "signal channel closed")) /\
    (signalChan rc = [] -> signalChanClosed rc = false ->
     wait_result (Stop rc) id picks = Returned (-1) "receiver stopped").
Proof.
  intros rc id picks Hwf.
  pose proof (Stop_closes rc Hwf) as Hclosed.
  destruct (Stop_keeps_signals rc) as [Hq Hc].
  assert (Hres : wait_result (Stop rc) id picks
                 = fst (fst (wait_loop (signalChan rc) (signalChanClosed rc) true id picks))).
  { unfold wait_result, WaitForOperation. rewrite Hq, Hc, Hclosed.
    destruct (wait_loop _ _ _ _ _) as [[res chunks] remaining]. reflexivity. }
  pose proof (wait_loop_stopped id (signalChan rc) (signalChanClosed rc) picks) as Hloop.
  cbn zeta in Hloop. rewrite <- Hres in Hloop.
  split; [|split; [|split]].
  - split; [apply Stop_again, Stop_stopped|]. split; [apply Stop_stopped|].
    split; [exact Hclosed|].
    destruct (Stop_well_formed rc Hwf) as [_ H]. apply H, Stop_stopped.
  - destruct Hloop as [H|[(s & c & m & _ & _ & H)|[_ H]]]; rewrite H; discriminate.
  - exact Hloop.
  - intros Hempty Hopen. rewrite Hres, Hempty, Hopen. reflexivity.
Qed.

Lemma C7_stop_a_new_receiver :
  well_formed NewReceiver /\
  ((Stop (Stop NewReceiver) = Stop NewReceiver /\ stopped (Stop NewReceiver) = true /\
    stopChanClosed (Stop NewReceiver) = true /\ subscribed (Stop NewReceiver) = false) /\
   wait_result (Stop NewReceiver) "op-4242-1" [] <> Blocked /\
   (wait_result (Stop NewReceiver) "op-4242-1" [] = Returned (-1) "receiver stopped"
    \/ (exists sig code msg,
          In sig (signalChan NewReceiver) /\ on_signal "op-4242-1" sig = inr (code, msg) /\
          wait_result (Stop NewReceiver) "op-4242-1" [] = Returned code msg)
    \/ (signalChanClosed NewReceiver = true /\
        wait_result (Stop NewReceiver) "op-4242-1" [] = Returned (-1) "signal channel closed")) /\
   (signalChan NewReceiver = [] -> signalChanClosed NewReceiver = false ->
    wait_result (Stop NewReceiver) "op-4242-1" [] = Returned (-1) "receiver stopped")).
Proof.
  assert (H : well_formed NewReceiver)
    by (split; [reflexivity|intros E; discriminate E]).
  split; [exact H|].
  exact (C7_stop_once_and_wait_returns NewReceiver "op-4242-1" [] H).
Defined.

(** C7 as stated fails: with the Complete signal of the operation already
    buffered, a wait that starts after [Stop] can return the result of the
    operation, exit code 0, and not the stopped sentinel. *)
Lemma C7_wait_after_stop_returns_a_buffered_result :
  well_formed receiver_with_result /\
  wait_result (Stop receiver_with_result) "op-4242-1" [true] = Returned 0 EmptyString.
Proof.
  split; [split; [reflexivity|intros E; discriminate E]|reflexivity].
Qed.

End ReceiverClaims.

Module SplitterProperties.
Import Splitter Emit Runner ChunkSpec RunSpec TextSpec Samples.
Import SplitterFacts ScannerFacts FillFacts ScanFacts ReaderFacts ChunkFacts BufferFacts.

(** X1.  The contract of [scanLinesCR] as a split function.  On every
    buffer it does one of three things and never reports an error: with a
    boundary byte in the buffer it returns the bytes in front of the first
    one as the token and advances past that byte; with none, at the end of
    the stream and with bytes left, it returns all of them; otherwise it
    asks for more data, advancing by nothing. *)
Theorem scanLinesCR_contract :
  forall (data : list byte) (atEOF : bool),
    (exists seg b rest,
       data = seg ++ b :: rest /\ unbroken seg /\ is_break b = true /\
       scanLinesCR data atEOF = (len seg + 1, Some seg, None))
    \/ (unbroken data /\ data <> [] /\ atEOF = true /\
        scanLinesCR data atEOF = (len data, Some data, None))
    \/ (unbroken data /\ (data = [] \/ atEOF = false) /\
        scanLinesCR data atEOF = (0, None, None)).
Proof.
  intros data atEOF.
  destruct (window_cases data) as [(seg & b & rest & -> & Hs & Hb)|Hu].
  - left. exists seg, b, rest. repeat split; auto. apply scanLinesCR_break; assumption.
  - right. rewrite (scanLinesCR_unbroken data atEOF Hu).
    destruct atEOF; cbn [andb].
    + destruct data as [|x t].
      * right. repeat split; auto.
      * left. rewrite len_cons.
        replace (0 <? len t + 1) with true
          by (symmetry; apply Z.ltb_lt; pose proof (len_nonneg t); lia).
        repeat split; auto. discriminate.
    + right. repeat split; auto.
Qed.

(** X2.  The lines a reader emits, and everything else it does to the
    connection and the log, do not depend on how the pipe cuts the stream into
    reads: [streamReader] returns for every stream, and two readers over the
    same bytes leave the same world behind. *)
Theorem streamReader_ignores_read_sizes :
  forall (input : list byte) (sched1 sched2 : list nat) (w : World) (id : string)
         (isStderr : bool),
    exists w',
      streamReader w id (mkReader input sched1) isStderr = Some w' /\
      streamReader w id (mkReader input sched2) isStderr = Some w'.
Proof.
  intros. rewrite !streamReader_spec, !stream_lines_of. eexists. split; reflexivity.
Qed.

Lemma segments_all_unbroken l : Forall unbroken (segments l).
Proof.
  induction l as [|b t IH]; cbn; [constructor|].
  destruct (is_break b) eqn:Hb.
  - constructor; [constructor|assumption].
  - destruct (segments t) as [|seg more]; [repeat constructor; assumption|].
    inversion IH; subst. constructor; [constructor; assumption|assumption].
Qed.

Lemma within_keeps P limit segs :
  Forall P segs -> Forall P (within limit segs).
Proof.
  induction 1 as [|seg more Hs _ IH]; cbn; [constructor|].
  destruct (len seg <? limit); [constructor; assumption|constructor].
Qed.

Lemma within_short limit segs : Forall (fun seg => len seg < limit) (within limit segs).
Proof.
  induction segs as [|seg more IH]; cbn; [constructor|].
  destruct (len seg <? limit) eqn:E; [|constructor].
  constructor; [apply Z.ltb_lt; assumption|assumption].
Qed.

(** X3.  The shape of every line on the bus: whatever the stream, each
    line a reader emits is a run of fewer than 1024 * 1024 bytes holding
    neither a carriage return nor a newline, followed by one newline. *)
Theorem emitted_lines_end_with_their_only_newline :
  forall (input : list byte) (sched : list nat) (w : World) (id : string)
         (isStderr : bool) (lines : list (list byte)),
    emits w id (mkReader input sched) isStderr lines ->
    Forall (fun line => exists seg,
              line = seg ++ [LF] /\ ~ In CR seg /\ ~ In LF seg /\
              len seg < max_buffer) lines.
Proof.
  intros input sched w id isStderr lines H.
  rewrite (emits_unique _ _ _ _ _ _ H (emits_stream_lines _ _ _ _)).
  rewrite stream_lines_of. apply Forall_map.
  pose proof (within_keeps unbroken max_buffer _ (segments_all_unbroken input)) as Hu.
  pose proof (within_short max_buffer (segments input)) as Hs.
  revert Hu Hs. generalize (within max_buffer (segments input)) as segs.
  induction segs as [|seg more IH]; intros Hu Hs; [constructor|].
  inversion Hu as [|? ? Hseg Hmore]; inversion Hs as [|? ? Hlen Hshort]; subst.
  constructor; [|auto].
  exists seg. split; [reflexivity|].
  assert (Hno : forall b, is_break b = true -> ~ In b seg).
  { intros b Hb Hin. unfold unbroken in Hseg. rewrite Forall_forall in Hseg.
    specialize (Hseg b Hin). congruence. }
  repeat split; auto.
Qed.

Lemma X3_lines_of_the_progress_display :
  emits quiet_world "op-4242-1" (mkReader progress_stream [2]%nat) false
        (chunks progress_stream) /\
  Forall (fun line => exists seg,
            line = seg ++ [LF] /\ ~ In CR seg /\ ~ In LF seg /\
            len seg < max_buffer) (chunks progress_stream).
Proof.
  assert (H : emits quiet_world "op-4242-1" (mkReader progress_stream [2]%nat) false
                    (chunks progress_stream))
    by (apply emits_stream_lines).
  split; [exact H|].
  exact (emitted_lines_end_with_their_only_newline progress_stream [2]%nat quiet_world
           "op-4242-1" false (chunks progress_stream) H).
Defined.

End SplitterProperties.

Module EmissionProperties.
Import Splitter Emit Runner ChunkSpec RunSpec TextSpec Samples.
Import SplitterFacts ScannerFacts FillFacts ScanFacts ReaderFacts ChunkFacts BufferFacts.

Lemma segments_nil l : segments l = [] -> l = [].
Proof.
  destruct l as [|b t]; [reflexivity|]. cbn.
  destruct (is_break b); [discriminate|]. destruct (segments t); discriminate.
Qed.

Lemma closing_cons b x t : closing (b :: x :: t) = closing (x :: t).
Proof. reflexivity. Qed.

Lemma break_to_newline b : is_break b = true -> to_newline b = LF.
Proof.
  unfold is_break, to_newline. destruct (Byte.eqb b CR); [reflexivity|].
  rewrite orb_false_r. intros H. apply Byte.byte_dec_bl in H. exact H.
Qed.

Lemma other_to_newline b : is_break b = false -> to_newline b = b.
Proof.
  unfold is_break, to_newline. intros H. apply orb_false_elim in H as [_ H].
  rewrite H. reflexivity.
Qed.

(** The chunks of a stream, put end to end, are the stream with every
    carriage return turned into a newline, closed by a newline when it did
    not end with a boundary byte. *)
Lemma concat_chunks l : List.concat (chunks l) = map to_newline l ++ closing l.
Proof.
  unfold chunks. induction l as [|b t IH]; [reflexivity|].
  cbn [segments map]. destruct (is_break b) eqn:Hb.
  - cbn [map List.concat chunk_of app]. rewrite IH, (break_to_newline b Hb).
    destruct t as [|x t']; [|rewrite closing_cons; reflexivity].
    cbn. unfold closing. cbn [last]. rewrite Hb. reflexivity.
  - rewrite (other_to_newline b Hb).
    destruct (segments t) as [|seg more] eqn:E.
    + apply segments_nil in E. subst t. cbn. unfold closing. cbn [last].
      rewrite Hb. reflexivity.
    + destruct t as [|x t']; [discriminate|]. rewrite closing_cons.
      change (List.concat (map chunk_of ((b :: seg) :: more)))
        with (b :: List.concat (map chunk_of (seg :: more))).
      rewrite IH. reflexivity.
Qed.

(** X4.  Nothing is lost and nothing is added but newlines: for a stream
    whose segments are shorter than 1024 * 1024 bytes, the lines a reader
    emits, put end to end, are the bytes of the stream with every carriage
    return turned into a newline, with one more newline at the end when the
    stream did not end with a boundary byte. *)
Theorem emitted_bytes_are_the_stream_with_newlines :
  forall (input : list byte) (sched : list nat) (w : World) (id : string)
         (isStderr : bool),
    short_segments max_buffer input ->
    exists lines,
      emits w id (mkReader input sched) isStderr lines /\
      List.concat lines = map to_newline input ++ closing input.
Proof.
  intros input sched w id isStderr Hshort.
  exists (chunks input). split; [|apply concat_chunks].
  pose proof (emits_stream_lines w id (mkReader input sched) isStderr) as H.
  rewrite stream_lines_of, (within_all _ _ Hshort) in H. exact H.
Qed.

Lemma X4_bytes_of_the_progress_display :
  short_segments max_buffer progress_stream /\
  exists lines,
    emits quiet_world "op-4242-1" (mkReader progress_stream [7; 0]%nat) false lines /\
    List.concat lines = map to_newline progress_stream ++ closing progress_stream.
Proof.
  assert (H : short_segments max_buffer progress_stream)
    by (unfold short_segments; repeat constructor).
  split; [exact H|].
  exact (emitted_bytes_are_the_stream_with_newlines progress_stream [7; 0]%nat
           quiet_world "op-4242-1" false H).
Defined.

Lemma emit_line_effects w id line isStderr :
  let a := hd None (transport w) in
  transport (emit_line w id line isStderr) = tl (transport w) /\
  emit_calls (emit_line w id line isStderr)
  = emit_calls w ++ [(Output id line isStderr, a)] /\
  log (emit_line w id line isStderr) = log w ++ line_log id (line, a).
Proof.
  unfold emit_line, EmitOutput, conn_Emit, write_log, line_log. cbn.
  destruct (transport w) as [|[e|] rest]; cbn; rewrite <- ?app_assoc; auto.
Qed.

Lemma emit_lines_effects id isStderr lines : forall w,
  let ans := answers (List.length lines) (transport w) in
  transport (emit_lines w id lines isStderr) = skipn (List.length lines) (transport w) /\
  emit_calls (emit_lines w id lines isStderr)
  = emit_calls w ++ combine (map (fun line => Output id line isStderr) lines) ans /\
  log (emit_lines w id lines isStderr)
  = log w ++ flat_map (line_log id) (combine lines ans).
Proof.
  unfold emit_lines.
  induction lines as [|l ls IH]; intros w; cbn [fold_left List.length answers map].
  - cbn. rewrite !app_nil_r. auto.
  - destruct (emit_line_effects w id l isStderr) as (Ht & Hc & Hl). cbn zeta in *.
    destruct (IH (emit_line w id l isStderr)) as (Ht' & Hc' & Hl'). cbn zeta in *.
    rewrite Ht', Hc', Hl', Ht, Hc, Hl. clear.
    destruct (transport w) as [|a rest]; cbn [tl hd skipn combine flat_map answers];
      rewrite <- !app_assoc; cbn [app]; repeat split; try reflexivity.
    destruct (List.length ls); reflexivity.
Qed.

(** X5.  What a reader does to the connection and the log, whatever the
    connection answers.  It always returns; it makes one emission call per
    line of its stream, in order, so a failed emission neither stops the
    reader nor costs a later line its call; every line has its entry in the
    log, and every failed emission is reported right after the entry of its
    line, with the error the connection gave. *)
Theorem streamReader_reports_every_failed_emission :
  forall (rd : Reader) (w : World) (id : string) (isStderr : bool),
    exists w',
      streamReader w id rd isStderr = Some w' /\
      transport w' = skipn (List.length (stream_lines rd)) (transport w) /\
      emit_calls w'
      = emit_calls w ++
        combine (map (fun line => Output id line isStderr) (stream_lines rd))
                (answers (List.length (stream_lines rd)) (transport w)) /\
      log w'
      = log w ++
        flat_map (line_log id)
                 (combine (stream_lines rd)
                          (answers (List.length (stream_lines rd)) (transport w))).
Proof.
  intros rd w id isStderr. rewrite streamReader_spec. eexists. split; [reflexivity|].
  apply emit_lines_effects.
Qed.

(** X6.  What the package's own test asks of the generator: two calls in a
    row return identifiers that differ, whatever the counter stood at (also
    across its wrap-around), neither is empty, and both start with "op-". *)
Theorem consecutive_identifiers_differ :
  forall (p : OpId.Proc),
    fst (OpId.GenerateOperationID p)
    <> fst (OpId.GenerateOperationID (snd (OpId.GenerateOperationID p))) /\
    fst (OpId.GenerateOperationID p) <> EmptyString /\
    String.prefix "op-" (fst (OpId.GenerateOperationID p)) = true /\
    String.prefix "op-"
      (fst (OpId.GenerateOperationID (snd (OpId.GenerateOperationID p)))) = true.
Proof.
  intros p.
  split; [|split; [intros E; cbn in E; discriminate E
                  |split; cbn; match goal with
                                  | |- prefix _ ?s = true => destruct s; reflexivity
                                  end]].
  exact (OpIdFacts.call_ids_differ p 0 1 (O_S 0) eq_refl).
Qed.

End EmissionProperties.

Module IdentityProperties.
Import OpId TextSpec Samples OpIdFacts.

Lemma dashless_uint d : dashless (NilEmpty.string_of_uint d) = true.
Proof. induction d; cbn; auto. Qed.

Lemma dashless_fmt_d z : 0 <= z -> dashless (fmt_d z) = true.
Proof.
  intros Hz. unfold fmt_d. destruct z as [|q|q]; [reflexivity| |lia].
  cbn [Z.to_int NilEmpty.string_of_int]. apply dashless_uint.
Qed.

(** Two texts cut at their first minus sign. *)
Lemma same_up_to_the_dash (a c b d : string) :
  dashless a = true -> dashless c = true ->
  (a ++ "-" ++ b)%string = (c ++ "-" ++ d)%string -> a = c /\ b = d.
Proof.
  revert c. induction a as [|x a IH]; intros [|y c] Ha Hc E; cbn in *.
  - injection E as E. auto.
  - injection E as E1 E2. subst y. cbn in Hc. discriminate.
  - injection E as E1 E2. subst x. cbn in Ha. discriminate.
  - injection E as E1 E2. subst y.
    apply andb_prop in Ha as [_ Ha]. apply andb_prop in Hc as [_ Hc].
    destruct (IH c Ha Hc E2) as [-> ->]. auto.
Qed.

(** X7.  Identifiers of different processes never coincide: the process
    id is part of the identifier, and the two numbers are separated so that
    no pair of a process id and a counter value renders like another. *)
Theorem identifiers_of_different_processes_differ :
  forall (p1 p2 : Proc),
    0 <= pid p1 -> 0 <= pid p2 -> pid p1 <> pid p2 ->
    fst (GenerateOperationID p1) <> fst (GenerateOperationID p2).
Proof.
  intros p1 p2 H1 H2 Hne E. unfold GenerateOperationID in E. cbn [fst] in E.
  apply append_inv_head in E.
  apply same_up_to_the_dash in E; try (apply dashless_fmt_d; assumption).
  destruct E as [E _]. apply fmt_d_inj in E. contradiction.
Qed.

Lemma X7_processes_1_and_12 :
  (0 <= pid (mkProc 1 22) /\ 0 <= pid (mkProc 12 2) /\
   pid (mkProc 1 22) <> pid (mkProc 12 2)) /\
  fst (GenerateOperationID (mkProc 1 22)) <> fst (GenerateOperationID (mkProc 12 2)).
Proof.
  assert (H1 : 0 <= pid (mkProc 1 22)) by (cbn; lia).
  assert (H2 : 0 <= pid (mkProc 12 2)) by (cbn; lia).
  assert (H3 : pid (mkProc 1 22) <> pid (mkProc 12 2)) by (cbn; lia).
  split; [exact (conj H1 (conj H2 H3))|].
  exact (identifiers_of_different_processes_differ (mkProc 1 22) (mkProc 12 2) H1 H2 H3).
Defined.

End IdentityProperties.

Module SyncProperties.
Import Splitter Emit Runner ChunkSpec RunSpec Samples.
Import SplitterFacts ScannerFacts FillFacts ScanFacts ReaderFacts RunFacts ExecutionFacts
       OperationFacts.

(** X8.  [RunCommandStreamingSync] on a command that starts: its readers
    and its finalization run to their end, and then the exit code the call
    returns is the exit code of the one Complete signal it has emitted, last
    of all its signals, under the identifier it returns.  The error it
    returns is nil also when the process failed or could not be waited for:
    only a failed start is an error of the call. *)
Theorem sync_returns_the_exit_code_it_broadcasts :
  forall (p : OpId.Proc) (stdout stderr : Reader) (exit : Exec.WaitOutcome)
         (w0 : World),
  exists t0 p',
    RunCommandStreamingSync p (Started stdout stderr exit) = (SyncRunning t0, p') /\
    sync_return t0 = (fst (OpId.GenerateOperationID p), exit_code exit, None) /\
    (exists t w, steps (t0, w0) (t, w) /\ finalizer t = Finished) /\
    (forall t w, steps (t0, w0) (t, w) -> finalizer t = Finished ->
       exists outs,
         emissions w =
           emissions w0 ++ map (signal_of (fst (OpId.GenerateOperationID p))) outs ++
           [Complete (fst (OpId.GenerateOperationID p)) (exit_code exit)
                     (error_message exit)]).
Proof.
  intros p stdout stderr exit w0.
  eexists _, _. split; [reflexivity|]. split; [reflexivity|].
  set (id := fst (OpId.GenerateOperationID p)).
  pose proof (start_inv id stdout stderr exit) as Hinv. split.
  - destruct (can_finish _ _ _ _ (emissions w0) _ _ [] w0 (Nat.lt_succ_diag_r _) Hinv
                (eq_sym (app_nil_r _))) as ([t w] & Hs & Hf).
    exists t, w. split; assumption.
  - intros t w Hsteps Hf.
    destruct (steps_keep_inv id _ _ exit (emissions w0) _ w0 (t, w) Hinv eq_refl Hsteps)
      as (tr & Hw & Hi).
    destruct Hi as (_ & _ & _ & _ & _ & _ & outs & _ & _ & Htr).
    cbn [fst snd] in *. rewrite Hf in Htr. exists outs. rewrite Hw, Htr. reflexivity.
Qed.

End SyncProperties.

Module ReceiverProperties.
Import Recv TextSpec Samples.

Lemma wait_loop_listening id : forall before sig after code msg chanClosed picks,
  Forall (fun s => exists c, on_signal id s = inl c) before ->
  on_signal id sig = inr (code, msg) ->
  wait_loop (before ++ sig :: after) chanClosed false id picks
  = (Returned code msg, delivered id before, after).
Proof.
  induction before as [|s before IH]; intros sig after code msg chanClosed picks Hb Hs;
    cbn [app wait_loop andb].
  - rewrite Hs. reflexivity.
  - inversion Hb as [|? ? [c Hc] Hrest]; subst.
    rewrite Hc, (IH sig after code msg chanClosed picks Hrest Hs).
    unfold delivered. cbn [flat_map]. rewrite Hc. destruct c; reflexivity.
Qed.

Lemma wait_loop_drained id : forall queue chanClosed picks,
  Forall (fun s => exists c, on_signal id s = inl c) queue ->
  wait_loop queue chanClosed false id picks
  = (if chanClosed then Returned (-1) "signal channel closed" else Blocked,
     delivered id queue, []).
Proof.
  induction queue as [|s queue IH]; intros chanClosed picks Hq; cbn [wait_loop andb].
  - destruct chanClosed; reflexivity.
  - inversion Hq as [|? ? [c Hc] Hrest]; subst.
    rewrite Hc, (IH chanClosed picks Hrest).
    unfold delivered. cbn [flat_map]. rewrite Hc. destruct c; reflexivity.
Qed.

(** The signals [on_signal] lets through. *)
Lemma on_signal_output id sig data isStderr :
  on_signal id sig = inl (Some (data, isStderr)) ->
  Path sig = ObjectPath /\
  Name sig = (Interface ++ "." ++ SignalOutput)%string /\
  exists more, Body sig = VString id :: VString data :: VBool isStderr :: more.
Proof.
  unfold on_signal.
  destruct (String.eqb (Path sig) ObjectPath) eqn:Hp; cbn [negb]; [|discriminate].
  apply String.eqb_eq in Hp.
  destruct (String.eqb (Name sig) (Interface ++ "." ++ SignalOutput)) eqn:Hn.
  - apply String.eqb_eq in Hn.
    destruct (Body sig) as [|[op| | |] [|[d| | |] [|[| |b|] more]]]; try discriminate.
    destruct (String.eqb op id) eqn:Hop; [|discriminate]. apply String.eqb_eq in Hop.
    intros [= <- <-]. subst op. eauto.
  - destruct (String.eqb (Name sig) (Interface ++ "." ++ SignalComplete)); [|discriminate].
    destruct (Body sig) as [|[op| | |] [|[|c| |] [|[m| | |] more]]]; try discriminate.
    destruct (String.eqb op id); discriminate.
Qed.

Lemma on_signal_complete id sig code msg :
  on_signal id sig = inr (code, msg) ->
  Path sig = ObjectPath /\
  Name sig = (Interface ++ "." ++ SignalComplete)%string /\
  exists more, Body sig = VString id :: VInt32 code :: VString msg :: more.
Proof.
  unfold on_signal.
  destruct (String.eqb (Path sig) ObjectPath) eqn:Hp; cbn [negb]; [|discriminate].
  apply String.eqb_eq in Hp.
  destruct (String.eqb (Name sig) (Interface ++ "." ++ SignalOutput)) eqn:Hn.
  - destruct (Body sig) as [|[op| | |] [|[d| | |] [|[| |b|] more]]]; try discriminate.
    destruct (String.eqb op id); discriminate.
  - destruct (String.eqb (Name sig) (Interface ++ "." ++ SignalComplete)) eqn:Hc;
      [|discriminate].
    apply String.eqb_eq in Hc.
    destruct (Body sig) as [|[op| | |] [|[|c| |] [|[m| | |] more]]]; try discriminate.
    destruct (String.eqb op id) eqn:Hop; [|discriminate]. apply String.eqb_eq in Hop.
    intros [= <- <-]. subst op. eauto.
Qed.

(** X9.  A receiver that has not been stopped waits for the first Complete
    signal of its operation: the signals buffered in front of it are taken in
    order, the call returns the exit code and message of that signal, which
    is a Complete signal on the service's object path carrying the
    operation's identifier, and the signals behind it stay in the channel.
    The [select] has no say in this. *)
Theorem wait_returns_the_first_completion :
  forall (before : list Signal) (sig : Signal) (after : list Signal) (id : string)
         (code : Z) (msg : string) (chanClosed : bool) (picks : list bool),
    Forall (fun s => exists c, on_signal id s = inl c) before ->
    on_signal id sig = inr (code, msg) ->
    WaitForOperation (listening (before ++ sig :: after) chanClosed) id picks
    = (Returned code msg, delivered id before, listening after chanClosed) /\
    Path sig = ObjectPath /\
    Name sig = "org.linglong_store.LinyapsManager.Complete"%string /\
    exists more, Body sig = VString id :: VInt32 code :: VString msg :: more.
Proof.
  intros before sig after id code msg chanClosed picks Hb Hs.
  split; [|exact (on_signal_complete id sig code msg Hs)].
  unfold WaitForOperation, listening. cbn [signalChan signalChanClosed stopChanClosed].
  rewrite (wait_loop_listening id before sig after code msg chanClosed picks Hb Hs).
  reflexivity.
Qed.

Lemma X9_two_operations_on_the_bus :
  (Forall (fun s => exists c, on_signal "op-4242-1" s = inl c)
          [bus_output "op-4242-7" "other" false; bus_output "op-4242-1" "hello" true] /\
   on_signal "op-4242-1" (bus_complete "op-4242-1" 3 EmptyString) = inr (3, EmptyString)) /\
  (WaitForOperation
     (listening ([bus_output "op-4242-7" "other" false;
                  bus_output "op-4242-1" "hello" true] ++
                 bus_complete "op-4242-1" 3 EmptyString ::
                 [bus_complete "op-4242-7" 0 EmptyString]) false)
     "op-4242-1" [true; false]
   = (Returned 3 EmptyString,
      delivered "op-4242-1"
        [bus_output "op-4242-7" "other" false; bus_output "op-4242-1" "hello" true],
      listening [bus_complete "op-4242-7" 0 EmptyString] false) /\
   Path (bus_complete "op-4242-1" 3 EmptyString) = ObjectPath /\
   Name (bus_complete "op-4242-1" 3 EmptyString)
   = "org.linglong_store.LinyapsManager.Complete"%string /\
   exists more,
     Body (bus_complete "op-4242-1" 3 EmptyString)
     = VString "op-4242-1" :: VInt32 3 :: VString EmptyString :: more).
Proof.
  assert (H1 : Forall (fun s => exists c, on_signal "op-4242-1" s = inl c)
                 [bus_output "op-4242-7" "other" false;
                  bus_output "op-4242-1" "hello" true])
    by (repeat constructor; eexists; reflexivity).
  assert (H2 : on_signal "op-4242-1" (bus_complete "op-4242-1" 3 EmptyString)
               = inr (3, EmptyString)) by reflexivity.
  split; [exact (conj H1 H2)|].
  exact (wait_returns_the_first_completion _ _ [bus_complete "op-4242-7" 0 EmptyString]
           "op-4242-1" 3 EmptyString false [true; false] H1 H2).
Defined.

Lemma wait_loop_chunks id : forall queue chanClosed stopClosed picks chunk,
  In chunk (snd (fst (wait_loop queue chanClosed stopClosed id picks))) ->
  exists sig, In sig queue /\ on_signal id sig = inl (Some chunk).
Proof.
  induction queue as [|s queue IH]; intros chanClosed stopClosed picks chunk; cbn [wait_loop].
  - destruct chanClosed, stopClosed, (hd false picks); cbn; contradiction.
  - destruct (stopClosed && negb (hd false picks)); [cbn; contradiction|].
    destruct (on_signal id s) as [c|[code msg]] eqn:Hs; [|cbn; contradiction].
    specialize (IH chanClosed stopClosed (if stopClosed then tl picks else picks) chunk).
    destruct (wait_loop queue chanClosed stopClosed id _) as [[res chunks] remaining].
    cbn [fst snd] in *. intros Hin.
    destruct c as [c|].
    + destruct Hin as [<-|Hin]; [exists s; split; [left; reflexivity|exact Hs]|].
      destruct (IH Hin) as (sig & Hq & Hsig). exists sig. split; [right|]; assumption.
    + destruct (IH Hin) as (sig & Hq & Hsig). exists sig. split; [right|]; assumption.
Qed.

(** X10.  Whatever is buffered, stopped or not, and whatever the [select]
    picks: the sink of [WaitForOperation] is given nothing but the data of
    Output signals that were sent on the service's object path under the
    identifier waited for, with the stream flag they carried.  The output of
    other operations, other signals and malformed bodies never reach it. *)
Theorem sink_gets_only_the_output_of_its_operation :
  forall (rc : Receiver) (id : string) (picks : list bool) (data : string)
         (isStderr : bool),
    In (data, isStderr) (snd (fst (WaitForOperation rc id picks))) ->
    exists sig more,
      In sig (signalChan rc) /\ Path sig = ObjectPath /\
      Name sig = "org.linglong_store.LinyapsManager.Output"%string /\
      Body sig = VString id :: VString data :: VBool isStderr :: more.
Proof.
  intros rc id picks data isStderr Hin.
  unfold WaitForOperation in Hin.
  pose proof (wait_loop_chunks id (signalChan rc) (signalChanClosed rc)
                (stopChanClosed rc) picks (data, isStderr)) as H.
  destruct (wait_loop _ _ _ _ _) as [[res chunks] remaining]. cbn [fst snd] in *.
  destruct (H Hin) as (sig & Hq & Hs).
  destruct (on_signal_output id sig data isStderr Hs) as (Hp & Hn & more & Hb).
  exists sig, more. auto.
Qed.

Lemma X10_output_of_another_operation :
  In ("hello"%string, true)
     (snd (fst (WaitForOperation
                  (listening [bus_output "op-4242-7" "other" false;
                              bus_output "op-4242-1" "hello" true] false)
                  "op-4242-1" []))) /\
  exists sig more,
    In sig (signalChan (listening [bus_output "op-4242-7" "other" false;
                                   bus_output "op-4242-1" "hello" true] false)) /\
    Path sig = ObjectPath /\
    Name sig = "org.linglong_store.LinyapsManager.Output"%string /\
    Body sig = VString "op-4242-1" :: VString "hello" :: VBool true :: more.
Proof.
  assert (H : In ("hello"%string, true)
                (snd (fst (WaitForOperation
                             (listening [bus_output "op-4242-7" "other" false;
                                         bus_output "op-4242-1" "hello" true] false)
                             "op-4242-1" []))))
    by (left; reflexivity).
  split; [exact H|].
  exact (sink_gets_only_the_output_of_its_operation _ "op-4242-1" [] "hello" true H).
Defined.

(** X11.  Without a Complete signal of its operation a wait does not end
    by itself: a receiver that has not been stopped takes every buffered
    signal, hands the operation's output to the sink, and is then left
    blocked in its [select] (there is no timeout), unless the connection
    has closed the channel, in which case it returns -1 and "signal channel
    closed". *)
Theorem wait_without_completion_blocks :
  forall (queue : list Signal) (id : string) (chanClosed : bool) (picks : list bool),
    Forall (fun s => exists c, on_signal id s = inl c) queue ->
    WaitForOperation (listening queue chanClosed) id picks
    = (if chanClosed then Returned (-1) "signal channel closed" else Blocked,
       delivered id queue, listening [] chanClosed).
Proof.
  intros queue id chanClosed picks Hq.
  unfold WaitForOperation, listening. cbn [signalChan signalChanClosed stopChanClosed].
  rewrite (wait_loop_drained id queue chanClosed picks Hq). reflexivity.
Qed.

Lemma X11_only_output_on_the_bus :
  Forall (fun s => exists c, on_signal "op-4242-1" s = inl c)
         [bus_output "op-4242-1" "hello" false; bus_complete "op-4242-7" 0 EmptyString] /\
  WaitForOperation
    (listening [bus_output "op-4242-1" "hello" false;
                bus_complete "op-4242-7" 0 EmptyString] false) "op-4242-1" []
  = (Blocked,
     delivered "op-4242-1"
       [bus_output "op-4242-1" "hello" false; bus_complete "op-4242-7" 0 EmptyString],
     listening [] false).
Proof.
  assert (H : Forall (fun s => exists c, on_signal "op-4242-1" s = inl c)
                [bus_output "op-4242-1" "hello" false;
                 bus_complete "op-4242-7" 0 EmptyString])
    by (repeat constructor; eexists; reflexivity).
  split; [exact H|].
  exact (wait_without_completion_blocks _ "op-4242-1" false [] H).
Defined.

End ReceiverProperties.

Module ReferenceProperties.
Import Service Client.

Lemma in_class_not_slash c : in_class c = true -> Ascii.eqb c "/" = false.
Proof.
  intros Hc. destruct (Ascii.eqb c "/") eqn:E; [|reflexivity].
  apply Ascii.eqb_eq in E. subst c. discriminate Hc.
Qed.

Lemma cut_at_slash (a b : string) :
  all_in_class a = true -> cut_at "/" (a ++ "/" ++ b) = Some (a, b).
Proof.
  induction a as [|c a IH]; intros Ha.
  - reflexivity.
  - cbn [all_in_class] in Ha. apply andb_true_iff in Ha as [Hc Ha].
    cbn [String.append cut_at]. rewrite (in_class_not_slash c Hc).
    cbn [String.append] in IH. rewrite (IH Ha). reflexivity.
Qed.

Lemma MatchString_parts s :
  MatchString s = true -> all_in_class s = true /\ String.eqb s EmptyString = false.
Proof.
  unfold MatchString. intros H.
  apply andb_true_iff in H as [H Hall]. apply andb_true_iff in H as [H1 _].
  split; [exact Hall|]. destruct s; [discriminate H1|reflexivity].
Qed.

Lemma appRef_parts appID version ref :
  appRef appID version = inl ref ->
  MatchString appID = true /\ MatchString version = true /\
  ref = (appID ++ "/" ++ version)%string.
Proof.
  unfold appRef, validateAppID, validateVersion.
  destruct (MatchString appID); cbn [negb]; [|discriminate].
  destruct (String.eqb version EmptyString); [discriminate|].
  destruct (MatchString version); cbn [negb]; [|discriminate].
  intros H. injection H as <-. auto.
Qed.

(** X12.  The client's [parseAppRef] undoes the service's [appRef]: a
    reference the service builds from an application identifier and a
    version it accepts is split by the client (by [parseAppRef] and by
    [parseAppRefOptional]) into the same identifier and the same version.
    The slash that joins them is the first one, since the pattern of the
    identifier admits none. *)
Theorem parseAppRef_inverts_appRef :
  forall (appID version ref : string),
    appRef appID version = inl ref ->
    parseAppRef ref = inl (appID, version) /\
    parseAppRefOptional ref = inl (appID, version).
Proof.
  intros appID version ref H.
  destruct (appRef_parts _ _ _ H) as (Ha & Hv & ->).
  destruct (MatchString_parts _ Ha) as [Hac Hae].
  destruct (MatchString_parts _ Hv) as [_ Hve].
  assert (Hp : parseAppRef (appID ++ "/" ++ version) = inl (appID, version)).
  { unfold parseAppRef, SplitN2. rewrite (cut_at_slash _ _ Hac).
    rewrite Hae, Hve. reflexivity. }
  split; [exact Hp|].
  unfold parseAppRefOptional, Contains. rewrite (cut_at_slash _ _ Hac). exact Hp.
Qed.

Lemma X12_calculator :
  appRef "org.deepin.calculator" "5.7.21" = inl "org.deepin.calculator/5.7.21"%string /\
  parseAppRef "org.deepin.calculator/5.7.21" = inl ("org.deepin.calculator", "5.7.21")%string /\
  parseAppRefOptional "org.deepin.calculator/5.7.21"
  = inl ("org.deepin.calculator", "5.7.21")%string.
Proof.
  assert (H : appRef "org.deepin.calculator" "5.7.21"
              = inl "org.deepin.calculator/5.7.21"%string) by reflexivity.
  split; [exact H|].
  exact (parseAppRef_inverts_appRef "org.deepin.calculator" "5.7.21" _ H).
Defined.

Lemma cut_at_parts sep : forall s a b,
  cut_at sep s = Some (a, b) -> s = (a ++ String sep b)%string.
Proof.
  induction s as [|c s IH]; intros a b; cbn [cut_at]; [discriminate|].
  destruct (Ascii.eqb c sep) eqn:E.
  - apply Ascii.eqb_eq in E. subst c. intros H. injection H as <- <-. reflexivity.
  - destruct (cut_at sep s) as [[a' b']|]; [|discriminate].
    intros H. injection H as <- <-. cbn [String.append]. f_equal. apply IH. reflexivity.
Qed.

Lemma cut_at_first sep : forall s a b,
  cut_at sep s = Some (a, b) -> cut_at sep a = None.
Proof.
  induction s as [|c s IH]; intros a b; cbn [cut_at]; [discriminate|].
  destruct (Ascii.eqb c sep) eqn:E.
  - intros H. injection H as <- <-. reflexivity.
  - destruct (cut_at sep s) as [[a' b']|] eqn:Hs; [|discriminate].
    intros H. injection H as <- <-. cbn [cut_at]. rewrite E.
    rewrite (IH a' b' eq_refl). reflexivity.
Qed.

(** X13.  Whatever [parseAppRefOptional] accepts can be put together
    again: the identifier it returns is not empty and holds no slash, and
    the argument was either the identifier alone (the version is then
    empty) or the identifier, a slash and the non-empty version.  So no
    reference is accepted whose identifier is empty, and the version is
    what stands behind the first slash, further slashes included. *)
Theorem parseAppRefOptional_splits_at_the_first_slash :
  forall (ref appID version : string),
    parseAppRefOptional ref = inl (appID, version) ->
    appID <> EmptyString /\ Contains appID "/" = false /\
    ref = (if String.eqb version EmptyString then appID
           else appID ++ "/" ++ version)%string.
Proof.
  intros ref appID version. unfold parseAppRefOptional, parseAppRef, Contains, SplitN2.
  destruct (cut_at "/" ref) as [[a b]|] eqn:Hcut.
  - destruct (String.eqb a EmptyString) eqn:Ha; [discriminate|].
    destruct (String.eqb b EmptyString) eqn:Hb; [discriminate|].
    cbn [orb]. intros H. injection H as <- <-. rewrite Hb.
    split; [|split].
    + intros ->. discriminate Ha.
    + rewrite (cut_at_first _ _ _ _ Hcut). reflexivity.
    + exact (cut_at_parts _ _ _ _ Hcut).
  - destruct (String.eqb ref EmptyString) eqn:He; [discriminate|].
    intros H. injection H as <- <-. rewrite Hcut.
    split; [|split]; try reflexivity.
    intros ->. discriminate He.
Qed.

Lemma X13_version_with_a_slash :
  parseAppRefOptional "org.deepin.calculator/5.7.21/x86_64"
  = inl ("org.deepin.calculator", "5.7.21/x86_64")%string /\
  ("org.deepin.calculator"%string <> EmptyString /\
   Contains "org.deepin.calculator" "/" = false /\
   "org.deepin.calculator/5.7.21/x86_64"%string
   = (if String.eqb "5.7.21/x86_64" EmptyString then "org.deepin.calculator"
      else "org.deepin.calculator" ++ "/" ++ "5.7.21/x86_64")%string).
Proof.
  assert (H : parseAppRefOptional "org.deepin.calculator/5.7.21/x86_64"
              = inl ("org.deepin.calculator", "5.7.21/x86_64")%string) by reflexivity.
  split; [exact H|].
  exact (parseAppRefOptional_splits_at_the_first_slash _ _ _ H).
Defined.

End ReferenceProperties.

Module FlagProperties.
Import Client.

Lemma parse_flag_loop_spec flag : forall args seen rest,
  parse_flag_loop flag args seen rest
  = (seen || existsb (fun a => String.eqb a flag) args,
     rest ++ filter (fun a => negb (String.eqb a flag)) args).
Proof.
  induction args as [|a args IH]; intros seen rest; cbn [parse_flag_loop existsb filter].
  - rewrite orb_false_r, app_nil_r. reflexivity.
  - destruct (String.eqb a flag); cbn [negb orb]; rewrite IH.
    + rewrite orb_true_r. reflexivity.
    + rewrite <- app_assoc. reflexivity.
Qed.

Lemma filter_drops flag (args : list string) :
  ~ In flag (filter (fun a => negb (String.eqb a flag)) args).
Proof.
  intros H. apply filter_In in H as [_ H]. rewrite String.eqb_refl in H. discriminate H.
Qed.

Lemma existsb_flag flag (args : list string) :
  existsb (fun a => String.eqb a flag) args = true <-> In flag args.
Proof.
  rewrite existsb_exists. split.
  - intros (a & Ha & E). apply String.eqb_eq in E. subst a. exact Ha.
  - intros H. exists flag. split; [exact H|apply String.eqb_refl].
Qed.

Lemma filter_without flag (args : list string) :
  ~ In flag args -> filter (fun a => negb (String.eqb a flag)) args = args.
Proof.
  induction args as [|a args IH]; intros Hn; cbn [filter]; [reflexivity|].
  destruct (String.eqb a flag) eqn:E.
  - apply String.eqb_eq in E. subst a. exfalso. apply Hn. left. reflexivity.
  - cbn [negb]. f_equal. apply IH. intros H. apply Hn. right. exact H.
Qed.

(** X14.  [parseForceFlag] and [parseJSONFlag] find their flag wherever it
    stands among the arguments and however often: the boolean they return
    is true exactly when the flag occurs, the arguments they return are the
    others in their order, without any occurrence of the flag, so that
    parsing them again finds no flag and changes nothing; and each of the
    two leaves the other's flag in place. *)
Theorem flags_are_found_anywhere_and_removed :
  forall (args : list string),
    (fst (parseForceFlag args) = true <-> In "--force"%string args) /\
    snd (parseForceFlag args)
    = filter (fun a => negb (String.eqb a "--force")) args /\
    parseForceFlag (snd (parseForceFlag args)) = (false, snd (parseForceFlag args)) /\
    (fst (parseJSONFlag args) = true <-> In "--json"%string args) /\
    snd (parseJSONFlag args)
    = filter (fun a => negb (String.eqb a "--json")) args /\
    parseJSONFlag (snd (parseJSONFlag args)) = (false, snd (parseJSONFlag args)) /\
    fst (parseJSONFlag (snd (parseForceFlag args))) = fst (parseJSONFlag args) /\
    fst (parseForceFlag (snd (parseJSONFlag args))) = fst (parseForceFlag args).
Proof.
  intros args. unfold parseForceFlag, parseJSONFlag.
  rewrite !parse_flag_loop_spec. cbn [fst snd orb app].
  split; [apply existsb_flag|]. split; [reflexivity|].
  split.
  { f_equal.
    - destruct (existsb _ _) eqn:E; [|reflexivity].
      apply existsb_flag in E. exfalso. exact (filter_drops _ _ E).
    - apply filter_without, filter_drops. }
  split; [apply existsb_flag|]. split; [reflexivity|].
  split.
  { f_equal.
    - destruct (existsb _ _) eqn:E; [|reflexivity].
      apply existsb_flag in E. exfalso. exact (filter_drops _ _ E).
    - apply filter_without, filter_drops. }
  split.
  - apply eq_true_iff_eq. rewrite !existsb_flag, filter_In. cbn. tauto.
  - apply eq_true_iff_eq. rewrite !existsb_flag, filter_In. cbn. tauto.
Qed.

End FlagProperties.

Module InstallProperties.
Import Splitter Emit Runner ChunkSpec RunSpec Samples Service.
Import ReaderFacts RunFacts ReferenceProperties.

(** X15.  [InstallStream] checks its arguments before it generates an
    identifier or starts anything (only the log line at its entry, which is
    not modelled, comes first): with an application identifier that does not
    match the pattern,
    or a non-empty version that does not, it returns an empty operation
    identifier and the validation error, and then no identifier has been
    generated (the counter of the process is untouched), [ll-cli] has not
    been started and no goroutine is left behind, so that nothing is ever
    emitted for the call. *)
Theorem InstallStream_validates_before_any_effect :
  forall (p : OpId.Proc) (appID version : string) (force : bool) (sp : SpawnPTY),
    MatchString appID = false \/
    (version <> EmptyString /\ MatchString version = false) ->
    exists e,
      InstallStream p appID version force sp = mkInvocation (EmptyString, Some e) p None None /\
      e = (if MatchString appID then InvalidVersion version else InvalidAppID appID).
Proof.
  intros p appID version force sp H.
  unfold InstallStream, appRef, validateAppID, validateVersion.
  destruct (String.eqb version EmptyString) eqn:Hv.
  - apply String.eqb_eq in Hv. destruct H as [Ha|[Hne _]]; [|contradiction].
    rewrite Ha. cbn [negb]. eexists. split; reflexivity.
  - destruct (MatchString appID) eqn:Ha; cbn [negb].
    + destruct H as [H|[_ Hm]]; [discriminate|]. rewrite Hm. cbn [negb].
      eexists. split; reflexivity.
    + eexists. split; reflexivity.
Qed.

Lemma X15_identifier_with_a_space :
  (MatchString "org.deepin calculator" = false \/
   ("5.7.21"%string <> EmptyString /\ MatchString "5.7.21" = false)) /\
  exists e,
    InstallStream a_process "org.deepin calculator" "5.7.21" true
                  (PtyStarted (mkReader progress_stream []) (Exec.Reaped 0))
    = mkInvocation (EmptyString, Some e) a_process None None /\
    e = (if MatchString "org.deepin calculator" then InvalidVersion "5.7.21"
         else InvalidAppID "org.deepin calculator").
Proof.
  assert (H : MatchString "org.deepin calculator" = false \/
              ("5.7.21"%string <> EmptyString /\ MatchString "5.7.21" = false))
    by (left; reflexivity).
  split; [exact H|].
  exact (InstallStream_validates_before_any_effect a_process _ _ true _ H).
Defined.

(** X16.  When [InstallStream] returns an operation identifier, the
    arguments were valid, [ll-cli] was started with exactly the arguments
    install, the reference (the identifier alone, or identifier, slash and
    version), -y and, only if asked for, --force; the identifier returned
    is the one freshly generated; and the goroutine left behind emits,
    under this identifier, the lines of the pseudo-terminal as standard
    output and then one Complete signal with the result of the process. *)
Theorem InstallStream_runs_the_install_it_announces :
  forall (p : OpId.Proc) (appID version : string) (force : bool) (sp : SpawnPTY)
         (opID : string),
    returned (InstallStream p appID version force sp) = (opID, None) ->
    MatchString appID = true /\
    (version = EmptyString \/ MatchString version = true) /\
    command (InstallStream p appID version force sp)
    = Some (["install"%string;
             if String.eqb version EmptyString then appID
             else (appID ++ "/" ++ version)%string;
             "-y"%string] ++ (if force then ["--force"%string] else [])) /\
    (opID, process (InstallStream p appID version force sp)) = OpId.GenerateOperationID p /\
    exists ptyFile exit task,
      sp = PtyStarted ptyFile exit /\
      background (InstallStream p appID version force sp) = Some task /\
      forall w, exists w',
        task w = Some w' /\
        emissions w' =
          emissions w ++ map (fun line => Output opID line false) (stream_lines ptyFile)
          ++ [completion_signal opID exit].
Proof.
  intros p appID version force sp opID.
  unfold InstallStream, appRef, validateAppID, validateVersion.
  destruct (MatchString appID) eqn:Ha; cbn [negb].
  2:{ destruct (String.eqb version EmptyString); cbn; discriminate. }
  assert (Hv : (if String.eqb version EmptyString
                then @inl string error appID
                else if String.eqb version EmptyString then inr EmptyVersion
                     else if negb (MatchString version) then inr (InvalidVersion version)
                          else inl (appID ++ "/" ++ version)%string)
               = inl (if String.eqb version EmptyString then appID
                      else (appID ++ "/" ++ version)%string) \/
               (String.eqb version EmptyString = false /\ MatchString version = false)).
  { destruct (String.eqb version EmptyString); [left; reflexivity|].
    destruct (MatchString version); [left; reflexivity|right; auto]. }
  destruct Hv as [Hv|[Hv Hm]].
  2:{ rewrite Hv, Hm. cbn. discriminate. }
  match goal with
  | |- context [match ?c with inl _ => _ | inr _ => _ end] =>
      replace c with (@inl string error (if String.eqb version EmptyString then appID
                      else (appID ++ "/" ++ version)%string))
        by (destruct (String.eqb version EmptyString); [reflexivity|];
            destruct (MatchString version); [reflexivity|discriminate Hv])
  end.
  unfold RunCommandStreamingPTY.
  destruct (OpId.GenerateOperationID p) as [id p1] eqn:Hg.
  destruct sp as [msg|ptyFile exit]; cbn [returned command process background];
    [discriminate|].
  intros H. injection H as <-.
  split; [reflexivity|]. split.
  { destruct (String.eqb version EmptyString) eqn:E.
    - left. apply String.eqb_eq. exact E.
    - right. destruct (MatchString version); [reflexivity|discriminate Hv]. }
  split; [destruct force; reflexivity|]. split; [reflexivity|].
  exists ptyFile, exit. eexists. split; [reflexivity|]. split; [reflexivity|].
  intros w. unfold pty_task. rewrite streamReader_spec. eexists. split; [reflexivity|].
  rewrite emissions_finalize, emissions_emit_lines, <- app_assoc. reflexivity.
Qed.

Lemma X16_forced_install_of_the_calculator :
  returned (InstallStream a_process "org.deepin.calculator" "5.7.21" true
              (PtyStarted (mkReader progress_stream []) (Exec.Reaped 0)))
  = ("op-4242-1"%string, None) /\
  command (InstallStream a_process "org.deepin.calculator" "5.7.21" true
             (PtyStarted (mkReader progress_stream []) (Exec.Reaped 0)))
  = Some ["install"; "org.deepin.calculator/5.7.21"; "-y"; "--force"]%string.
Proof.
  assert (H : returned (InstallStream a_process "org.deepin.calculator" "5.7.21" true
                          (PtyStarted (mkReader progress_stream []) (Exec.Reaped 0)))
              = ("op-4242-1"%string, None)) by reflexivity.
  split; [exact H|].
  destruct (InstallStream_runs_the_install_it_announces a_process
              "org.deepin.calculator" "5.7.21" true
              (PtyStarted (mkReader progress_stream []) (Exec.Reaped 0))
              "op-4242-1" H) as (_ & _ & Hc & _).
  exact Hc.
Defined.

End InstallProperties.
